(** * Short-bearing force law and Jeffcott rotor set-up

    A shallow embedding of [fun_short_bearing] (test_short_bearing.py) and of
    the set-up and right-hand side of run_Jeffcott_journal_bearing_short.py.

    Numbers are the real numbers: the development reads the Python formulas
    in exact arithmetic, in the order in which Python evaluates them.  An
    operation that has no real value (a division whose divisor is zero, the
    square root or a fractional power of a negative number) ends the
    evaluation in the model with a [fault] that records the source line and
    the operand.

    For the scalar divisions of lines 15, 16, 19 and 29, which are Python's,
    this is what the source does: it raises ZeroDivisionError.  From line 20
    on the operands are numpy scalars, whose operations do not raise: with a
    zero divisor the source carries on with inf or nan (chosen by the sign
    of a floating-point zero), and a negative base of [**] gives a complex
    number.  These values lie outside the real numbers and the model does
    not follow them: a fault at such a place says that the value is not a
    real number and says nothing about what the source returns in the end.
    [observed] tells the two kinds of fault apart.  The guard of line 32 is
    the one place where the outcome does not depend on more than the sign
    of the numerator; it is modelled as numpy evaluates it. *)

From Stdlib Require Import String Reals Lra Lia List.
From Stdlib Require Import Machin.
Import ListNotations.
Open Scope R_scope.

(** ** Faults and the evaluation monad *)

Inductive fault : Type :=
| ZeroDivision (line : nat) (divisor : string)
| NotReal (line : nat) (operand : string).

Inductive outcome (A : Type) : Type :=
| Ok (a : A)
| Fault (f : fault).

Arguments Ok {A} a.
Arguments Fault {A} f.

Definition bind {A B : Type} (m : outcome A) (k : A -> outcome B) : outcome B :=
  match m with
  | Ok a => k a
  | Fault f => Fault f
  end.

Notation "x <- m ;; k" := (bind m (fun x => k))
  (at level 61, m at next level, right associativity).

(** [x / y] *)
Definition rdiv (line : nat) (divisor : string) (x y : R) : outcome R :=
  if Req_dec_T y 0 then Fault (ZeroDivision line divisor) else Ok (x / y).

(** [np.sqrt(x)] *)
Definition rsqrt (line : nat) (operand : string) (x : R) : outcome R :=
  if Rlt_dec x 0 then Fault (NotReal line operand) else Ok (sqrt x).

(** [x ** y] for the fractional exponents 1.5 and 2.5; for a negative base
    Python gives a complex number, which the model does not follow. *)
Definition rpow (line : nat) (operand : string) (x y : R) : outcome R :=
  if Rlt_dec 0 x then Ok (Rpower x y)
  else if Req_dec_T x 0 then Ok 0
  else Fault (NotReal line operand).

(** Componentwise scaling of a returned force pair. *)
Definition scale (k : R) (o : outcome (R * R)) : outcome (R * R) :=
  match o with
  | Ok (fr, fphi) => Ok (k * fr, k * fphi)
  | Fault f => Fault f
  end.

(** ** The force law, test_short_bearing.py lines 10-43 *)

Module ShortBearing.

(** The literal [1e16]. *)
Definition big : R := 1e16.

(** Lines 18-31: tangent, cosine and sine of the auxiliary angle. *)
Definition kappa_1 (eps E G : R) : outcome (R * R * R) :=
  if Rgt_dec G 1 then
    tan_kappa_1 <- rdiv 19 "eps*(1-G)" E (eps * (1 - G)) ;;
    r <- rsqrt 20 "1+tan_kappa_1**2" (1 + tan_kappa_1 ^ 2) ;;
    cos_kappa_1 <- rdiv 20 "np.sqrt(1+tan_kappa_1**2)" 1 r ;;
    r' <- rsqrt 21 "1+tan_kappa_1**2" (1 + tan_kappa_1 ^ 2) ;;
    sin_kappa_1 <- rdiv 21 "np.sqrt(1+tan_kappa_1**2)" tan_kappa_1 r' ;;
    Ok (tan_kappa_1, cos_kappa_1, sin_kappa_1)
  else
    tan_kappa_1 <-
      (if Req_dec_T G 1 then
         if Rgt_dec E 0 then Ok (- big) else Ok big
       else rdiv 29 "eps*(1-G)" E (eps * (1 - G))) ;;
    r <- rsqrt 30 "1+tan_kappa_1**2" (1 + tan_kappa_1 ^ 2) ;;
    cos_kappa_1 <- rdiv 30 "np.sqrt(1+tan_kappa_1**2)" (- 1) r ;;
    r' <- rsqrt 31 "1+tan_kappa_1**2" (1 + tan_kappa_1 ^ 2) ;;
    sin_kappa_1 <- rdiv 31 "np.sqrt(1+tan_kappa_1**2)" (- tan_kappa_1) r' ;;
    Ok (tan_kappa_1, cos_kappa_1, sin_kappa_1).

(** Lines 32-35: the phase correction.  The division of the guard is
    numpy's: for a zero divisor the quotient is nan when the numerator is
    zero and -inf or +inf by the sign of the numerator otherwise, and of
    these only -inf is below zero. *)
Definition phase (cos_kappa_1 sin_kappa_1 : R) : outcome R :=
  if Req_dec_T (1 + cos_kappa_1) 0 then
    if Rlt_dec sin_kappa_1 0 then Ok PI else Ok 0
  else
    if Rlt_dec (sin_kappa_1 / (1 + cos_kappa_1)) 0 then Ok PI else Ok 0.

(** [np.arctan(np.sqrt(1-eps**2)/eps/sin_kappa_1)], lines 38 and 39.  The
    two divisions are numpy's: for a zero divisor the source carries on with
    inf, of the sign that the floating-point zero has, and the arctangent of
    inf is finite.  The model does not follow this; it ends with a fault,
    which says no more than that the quotient is not a real number. *)
Definition arctan_term (line : nat) (eps sin_kappa_1 : R) : outcome R :=
  r <- rsqrt line "1-eps**2" (1 - eps ^ 2) ;;
  a <- rdiv line "eps" r eps ;;
  b <- rdiv line "sin_kappa_1" a sin_kappa_1 ;;
  Ok (atan b).

(** Line 37. *)
Definition I1 (eps cos_kappa_1 : R) : outcome R :=
  rdiv 37 "(1-eps**2*cos_kappa_1**2)**2"
       (2 * eps * cos_kappa_1 ^ 3) ((1 - eps ^ 2 * cos_kappa_1 ^ 2) ^ 2).

(** Line 38. *)
Definition I2 (eps cos_kappa_1 sin_kappa_1 piS : R) : outcome R :=
  a <- rdiv 38 "1-eps**2"
         (- eps * sin_kappa_1 * (1 - (2 - eps ^ 2) * cos_kappa_1 ^ 2))
         (1 - eps ^ 2) ;;
  b <- rdiv 38 "(1-eps**2*cos_kappa_1**2)**2" a
         ((1 - eps ^ 2 * cos_kappa_1 ^ 2) ^ 2) ;;
  t <- arctan_term 38 eps sin_kappa_1 ;;
  p <- rpow 38 "1-eps**2" (1 - eps ^ 2) 1.5 ;;
  c <- rdiv 38 "(1-eps**2)**1.5" (piS + t) p ;;
  Ok (b + c).

(** Line 39. *)
Definition I3 (eps cos_kappa_1 sin_kappa_1 piS : R) : outcome R :=
  a <- rdiv 39 "(1-eps**2)**2"
         (- eps * sin_kappa_1
          * (4 - eps ^ 2 * (1 + (2 + eps ^ 2) * cos_kappa_1 ^ 2)))
         ((1 - eps ^ 2) ^ 2) ;;
  b <- rdiv 39 "(1-eps**2*cos_kappa_1**2)**2" a
         ((1 - eps ^ 2 * cos_kappa_1 ^ 2) ^ 2) ;;
  t <- arctan_term 39 eps sin_kappa_1 ;;
  p <- rpow 39 "1-eps**2" (1 - eps ^ 2) 2.5 ;;
  c <- rdiv 39 "(1-eps**2)**2.5" ((piS + t) * (2 + eps ^ 2)) p ;;
  Ok (b + c).

(** Lines 14-16: only rotation. *)
Definition rotation (eps : R) : outcome (R * R) :=
  fr <- rdiv 15 "(1-eps**2)**2" (2 * eps ^ 2) ((1 - eps ^ 2) ^ 2) ;;
  p <- rpow 16 "1-eps**2" (1 - eps ^ 2) 1.5 ;;
  fphi <- rdiv 16 "(1-eps**2)**1.5" (- 0.5 * PI * eps) p ;;
  Ok (fr, fphi).

(** Lines 17-42: rotation and squeeze. *)
Definition squeeze (eps E G B2D : R) : outcome (R * R) :=
  k <- kappa_1 eps E G ;;
  let '(_, cos_kappa_1, sin_kappa_1) := k in
  piS <- phase cos_kappa_1 sin_kappa_1 ;;
  i1 <- I1 eps cos_kappa_1 ;;
  i2 <- I2 eps cos_kappa_1 sin_kappa_1 piS ;;
  i3 <- I3 eps cos_kappa_1 sin_kappa_1 piS ;;
  Ok (B2D ^ 2 * (i2 * eps * (1 - G) - E * i1),
      B2D ^ 2 * (i1 * eps * (1 - G) + E * (i2 - i3))).

Definition fun_short_bearing (eps epsS phiS B2D : R) : outcome (R * R) :=
  let E := 2 * epsS in
  let G := 2 * phiS in
  if Req_dec_T E 0 then
    if Req_dec_T G 0 then rotation eps else squeeze eps E G B2D
  else squeeze eps E G B2D.

(** What a caller of [fun_short_bearing] observes, as far as the model
    follows the source: the returned pair, or the exception raised.  The
    source raises only what Python's scalar divisions raise,
    ZeroDivisionError; [DomainViolation] is the class the specification
    names, which the source neither defines nor raises.  Faults at the numpy
    operations and at [**] are not followed. *)
Inductive exception : Type :=
| ZeroDivisionError
| DomainViolation.

Inductive observation : Type :=
| Returns (fr fphi : R)
| Raises (e : exception)
| NotFollowed.

Definition raises_in_python (line : nat) : bool :=
  match line with
  | 15%nat | 16%nat | 19%nat | 29%nat => true
  | _ => false
  end.

Definition observed (o : outcome (R * R)) : observation :=
  match o with
  | Ok (fr, fphi) => Returns fr fphi
  | Fault (ZeroDivision line _) =>
      if raises_in_python line then Raises ZeroDivisionError else NotFollowed
  | Fault (NotReal _ _) => NotFollowed
  end.

(** The second component of the returned array, read as a real function of
    the inputs (0 where the evaluation stops with a fault). *)
Definition tangential (o : outcome (R * R)) : R :=
  match o with
  | Ok (_, fphi) => fphi
  | Fault _ => 0
  end.

(** The two denominators that occur in lines 15, 16 and 37-39. *)
Definition den_eps (eps : R) : R := 1 - eps ^ 2.
Definition den_cos (eps cos_kappa_1 : R) : R := 1 - eps ^ 2 * cos_kappa_1 ^ 2.

(** *** Values of the sub-expressions where every operation is defined *)

Definition tan_val (eps E G : R) : R := E / (eps * (1 - G)).
Definition cos_pos (t : R) : R := 1 / sqrt (1 + t ^ 2).
Definition sin_pos (t : R) : R := t / sqrt (1 + t ^ 2).
Definition cos_neg (t : R) : R := - 1 / sqrt (1 + t ^ 2).
Definition sin_neg (t : R) : R := - t / sqrt (1 + t ^ 2).

Definition piS_val (c s : R) : R := if Rlt_dec (s / (1 + c)) 0 then PI else 0.

Definition atan_val (eps s : R) : R := atan (sqrt (1 - eps ^ 2) / eps / s).

Definition I1_val (eps c : R) : R :=
  2 * eps * c ^ 3 / (1 - eps ^ 2 * c ^ 2) ^ 2.

Definition I2_val (eps c s piS : R) : R :=
  - eps * s * (1 - (2 - eps ^ 2) * c ^ 2) / (1 - eps ^ 2)
    / (1 - eps ^ 2 * c ^ 2) ^ 2
  + (piS + atan_val eps s) / Rpower (1 - eps ^ 2) 1.5.

Definition I3_val (eps c s piS : R) : R :=
  - eps * s * (4 - eps ^ 2 * (1 + (2 + eps ^ 2) * c ^ 2)) / (1 - eps ^ 2) ^ 2
    / (1 - eps ^ 2 * c ^ 2) ^ 2
  + (piS + atan_val eps s) * (2 + eps ^ 2) / Rpower (1 - eps ^ 2) 2.5.

Definition fr_val (eps E G B2D c s : R) : R :=
  let piS := piS_val c s in
  B2D ^ 2 * (I2_val eps c s piS * eps * (1 - G) - E * I1_val eps c).

Definition fphi_val (eps E G B2D c s : R) : R :=
  let piS := piS_val c s in
  B2D ^ 2 * (I1_val eps c * eps * (1 - G)
             + E * (I2_val eps c s piS - I3_val eps c s piS)).

(** The two parts of [I2 - I3]: the factor of the arctangent term and the
    part that is odd in the sine. *)
Definition atan_factor (eps : R) : R :=
  (1 + 2 * eps ^ 2) / Rpower (1 - eps ^ 2) 2.5.
Definition odd_part (eps c s : R) : R :=
  eps * s * (3 - (5 * eps ^ 2 - 2) * c ^ 2)
  / ((1 - eps ^ 2) ^ 2 * (1 - eps ^ 2 * c ^ 2) ^ 2).

(** A level that separates the tangential force on the line [G = 1] from
    its values off the line, for a positive radial speed. *)
Definition jump_level (eps E B2D : R) : R :=
  - (B2D ^ 2 * (E * (PI / 2 * atan_factor eps))).

(** The evaluation ran into a division whose divisor is zero. *)
Definition reaches_division_by_zero {A : Type} (o : outcome A) : Prop :=
  exists (line : nat) (divisor : string), o = Fault (ZeroDivision line divisor).

End ShortBearing.

(** ** Set-up and right-hand side, run_Jeffcott_journal_bearing_short.py *)

Module Jeffcott.

Definition vec : Type := list R.
Definition mat : Type := list (list R).

(** *** The numpy operations the script uses *)

Definition zeros (n : nat) : vec := repeat 0 n.
Definition zeros2 (r c : nat) : mat := repeat (zeros c) r.

Definition diag (l : vec) : mat :=
  map (fun i => map (fun j => if Nat.eqb i j then nth i l 0 else 0)
                    (seq 0 (length l)))
      (seq 0 (length l)).

Definition smul (k : R) (v : vec) : vec := map (Rmult k) v.
Definition mscale (k : R) (A : mat) : mat := map (smul k) A.

Fixpoint zip_with (f : R -> R -> R) (u v : vec) : vec :=
  match u, v with
  | x :: u', y :: v' => f x y :: zip_with f u' v'
  | _, _ => []
  end.

Definition vadd : vec -> vec -> vec := zip_with Rplus.
Definition vsub : vec -> vec -> vec := zip_with Rminus.
Definition dot (u v : vec) : R := fold_right Rplus 0 (zip_with Rmult u v).

(** [A @ v] *)
Definition matvec (A : mat) (v : vec) : vec := map (fun row => dot row v) A.

(** [np.hstack] of two matrices, [np.vstack]; on vectors [np.hstack] is [++]. *)
Fixpoint hstack (A B : mat) : mat :=
  match A, B with
  | r :: A', r' :: B' => (r ++ r') :: hstack A' B'
  | _, _ => []
  end.
Definition vstack (A B : mat) : mat := A ++ B.

(** [q[[0,2,4,6]]] *)
Definition take_indices (q : vec) (idx : list nat) : vec :=
  map (fun i => nth i q 0) idx.

Fixpoint transpose (A : mat) : mat :=
  match A with
  | [] => []
  | r :: A' =>
      match A' with
      | [] => map (fun x => [x]) r
      | _ => map (fun p => fst p :: snd p) (combine r (transpose A'))
      end
  end.

(** [A] has [r] rows of [c] entries. *)
Definition shape (r c : nat) (A : mat) : Prop :=
  length A = r /\ Forall (fun row => length row = c) A.

(** [x^T A x] for a 4-vector [x]. *)
Definition quad4 (A : mat) (x0 x1 x2 x3 : R) : R :=
  dot [x0; x1; x2; x3] (matvec A [x0; x1; x2; x3]).

(** *** Parameters, lines 19-37 *)

Definition g : R := 9.81.
Definition m : R := 0.1.
Definition mj : R := 1e-5.
Definition eps : R := m * 1e-6.
Definition cs : R := 1e5.
Definition d : R := 1e-2 * sqrt (cs * m).
Definition BB : R := 3.5e-3.
Definition DB : R := 7e-3.
Definition CB : R := 15e-6.
Definition eta : R := 1e-2.
Definition tmax : R := 1.
Definition fmax : R := 500.
Definition arot : R := 2 * PI * fmax / tmax.

(** *** System matrices, lines 52-59 *)

Definition M : mat := diag [mj; m; mj; m].
Definition O : mat := [[1; -1]; [-1; 1]].
Definition D : mat :=
  vstack (hstack (mscale d O) (zeros2 2 2)) (hstack (zeros2 2 2) (mscale d O)).
Definition C : mat :=
  vstack (hstack (mscale cs O) (zeros2 2 2)) (hstack (zeros2 2 2) (mscale cs O)).
Definition gvec : vec := smul g (zeros 6 ++ [1; 1]).

(** *** The right-hand side, lines 42-47

    The functions of the [rotordynamic] package are not part of the script;
    they are parameters of the right-hand side. *)

Section RightHandSide.

Variable bearing_journal_short : vec -> R -> R -> R -> R -> R -> vec.
Variable unbalance_const_acc : R -> R -> R -> vec.
Variable state_space : mat -> mat -> mat -> mat * mat.

Definition A : mat := fst (state_space M D C).
Definition Minv : mat := snd (state_space M D C).

Definition rotor_Jeffcott (t : R) (q : vec) : vec :=
  let FB := smul 2 (bearing_journal_short (take_indices q [0; 2; 4; 6])%nat
                                          BB DB CB eta (arot * t)) in
  let FU := unbalance_const_acc t eps arot in
  let Fvec := [nth 0 FB 0; nth 0 FU 0; nth 1 FB 0; nth 1 FU 0] in
  let fvec := zeros 4 ++ matvec Minv Fvec in
  vsub (vadd (matvec A q) fvec) gvec.

End RightHandSide.

(** Modelled from the spec: [rd.state_space] belongs to the [rotordynamic]
    package, which is not among the sources.  The spec gives the transition
    matrix [[0, I], [-Minv C, -Minv D]] and the inverse-mass operator; the
    inverse is written out for a diagonal mass matrix such as [M]. *)
Definition eye (n : nat) : mat := diag (repeat 1 n).
Definition matmul (X Y : mat) : mat :=
  map (fun row => map (fun col => dot row col) (transpose Y)) X.
Definition mneg (X : mat) : mat := mscale (-1) X.
Definition state_space_diagonal (M D C : mat) : mat * mat :=
  let Minv := diag (map (fun i => / nth i (nth i M []) 0) (seq 0 (length M))) in
  (vstack (hstack (zeros2 4 4) (eye 4))
          (hstack (mneg (matmul Minv C)) (mneg (matmul Minv D))),
   Minv).

(** *** Initial condition, line 65 *)

Definition q0 : vec := map (fun x => x + 1e-10) (zeros 8).

(** *** Plotted quantities of one sample, lines 83 and 91 *)

Definition journal_eccentricity (x y : R) : R := sqrt (x ^ 2 + y ^ 2) / CB.
Definition journal_orbit (x y : R) : R * R := (x / CB, y / CB).

(** A bearing and an unbalance that exert no force. *)
Definition no_force_bearing (_ : vec) (_ _ _ _ _ : R) : vec := [0; 0].
Definition no_force_unbalance (_ _ _ : R) : vec := [0; 0].

End Jeffcott.

(** ** Elementary facts about the partial operations *)

Section Operations.

Variables (line : nat) (label : string).

Lemma rdiv_ok (x y : R) : y <> 0 -> rdiv line label x y = Ok (x / y).
Proof.
  intros Hy. unfold rdiv. destruct (Req_dec_T y 0) as [H0 | _]; [contradiction | reflexivity].
Qed.

Lemma rdiv_zero (x : R) : rdiv line label x 0 = Fault (ZeroDivision line label).
Proof.
  unfold rdiv. destruct (Req_dec_T 0 0) as [_ | H0]; [reflexivity | now elim H0].
Qed.

Lemma rsqrt_ok (x : R) : 0 <= x -> rsqrt line label x = Ok (sqrt x).
Proof.
  intros Hx. unfold rsqrt. destruct (Rlt_dec x 0) as [Hn | _]; [lra | reflexivity].
Qed.

Lemma rpow_ok (x y : R) : 0 < x -> rpow line label x y = Ok (Rpower x y).
Proof.
  intros Hx. unfold rpow. destruct (Rlt_dec 0 x) as [_ | Hn]; [reflexivity | contradiction].
Qed.

Lemma rpow_zero (y : R) : rpow line label 0 y = Ok 0.
Proof.
  unfold rpow. destruct (Rlt_dec 0 0) as [Hn | _]; [lra | ].
  destruct (Req_dec_T 0 0) as [_ | H0]; [reflexivity | now elim H0].
Qed.

End Operations.

(** Fractional powers expressed with the square root. *)

Lemma Rpower_1_5 (x : R) : 0 < x -> Rpower x 1.5 = x * sqrt x.
Proof.
  intros Hx. replace 1.5 with (1 + / 2) by lra.
  rewrite Rpower_plus, Rpower_1, Rpower_sqrt; auto.
Qed.

Lemma Rpower_2_5 (x : R) : 0 < x -> Rpower x 2.5 = x * Rpower x 1.5.
Proof.
  intros Hx. replace 2.5 with (1 + 1.5) by lra.
  rewrite Rpower_plus, Rpower_1; auto.
Qed.

Lemma Rpower_pos (x y : R) : 0 < Rpower x y.
Proof. unfold Rpower. apply exp_pos. Qed.

(** Sign of [1 - eps^2] on the admissible range of the eccentricity. *)

Lemma one_minus_sq_pos (eps : R) : 0 <= eps < 1 -> 0 < 1 - eps ^ 2.
Proof. intros [H0 H1]. nra. Qed.

Lemma one_minus_sq_cos_pos (eps c : R) :
  0 <= eps < 1 -> Rabs c <= 1 -> 0 < 1 - eps ^ 2 * c ^ 2.
Proof.
  intros [H0 H1] Hc.
  assert (-1 <= c <= 1)
    by (unfold Rabs in Hc; destruct (Rcase_abs c); lra).
  assert (c ^ 2 <= 1) by nra. assert (eps ^ 2 < 1) by nra.
  assert (0 <= c ^ 2) by nra. nra.
Qed.

Import ShortBearing.

(** ** Numeric bounds and the rotation branch *)

Lemma div_mul_cancel (x y : R) : y <> 0 -> x / y * y = x.
Proof. intros Hy. field. exact Hy. Qed.

Lemma PI_bounds : 3.14159 < PI < 3.1416.
Proof.
  generalize (PI_2_3_7_ineq 2).
  unfold sum_f_R0, tg_alt, PI_2_3_7_tg, Ratan_seq. simpl. lra.
Qed.

Lemma sqrt_3_4_bounds : 0.866025 < sqrt 0.75 < 0.866026.
Proof.
  assert (H : 0 <= 0.75) by lra.
  pose proof (sqrt_sqrt _ H) as Hs.
  pose proof (sqrt_pos 0.75) as Hp.
  split; nra.
Qed.

Lemma rotation_ok (eps : R) :
  0 <= eps < 1 ->
  rotation eps
  = Ok (2 * eps ^ 2 / (1 - eps ^ 2) ^ 2,
        - 0.5 * PI * eps / Rpower (1 - eps ^ 2) 1.5).
Proof.
  intros Heps. pose proof (one_minus_sq_pos eps Heps) as Hu.
  unfold rotation.
  rewrite rdiv_ok by (apply pow_nonzero; lra). cbn [bind].
  rewrite rpow_ok by assumption. cbn [bind].
  rewrite rdiv_ok by (apply Rgt_not_eq, Rpower_pos). reflexivity.
Qed.

Lemma fun_short_bearing_rotation (eps B2D : R) :
  fun_short_bearing eps 0 0 B2D = rotation eps.
Proof.
  unfold fun_short_bearing.
  destruct (Req_dec_T (2 * 0) 0) as [_ | H]; [ | exfalso; lra].
  reflexivity.
Qed.

(** ** The auxiliary angle *)

Lemma hyp_pos (t : R) : 0 < sqrt (1 + t ^ 2).
Proof. apply sqrt_lt_R0. nra. Qed.

Lemma hyp_sqr (t : R) : sqrt (1 + t ^ 2) ^ 2 = 1 + t ^ 2.
Proof. rewrite <- Rsqr_pow2. apply Rsqr_sqrt. nra. Qed.

Lemma hyp_ge_1 (t : R) : 1 <= sqrt (1 + t ^ 2).
Proof.
  pose proof (hyp_pos t) as Hp. pose proof (hyp_sqr t) as Hs.
  destruct (Rle_lt_dec 1 (sqrt (1 + t ^ 2))) as [H | H]; [exact H | nra].
Qed.

Lemma right_triangle_pos (t : R) :
  cos_pos t ^ 2 + sin_pos t ^ 2 = 1 /\ sin_pos t = t * cos_pos t
  /\ 0 < cos_pos t <= 1.
Proof.
  pose proof (hyp_pos t) as Hp. pose proof (hyp_sqr t) as Hs.
  pose proof (hyp_ge_1 t) as H1.
  unfold cos_pos, sin_pos. set (r := sqrt (1 + t ^ 2)) in *.
  repeat split.
  - replace ((1 / r) ^ 2 + (t / r) ^ 2) with ((1 + t ^ 2) / r ^ 2)
      by (field; lra).
    rewrite Hs. field. nra.
  - field. lra.
  - apply Rdiv_lt_0_compat; lra.
  - apply Rmult_le_reg_r with r; [lra | ].
    unfold Rdiv. rewrite Rmult_assoc, Rinv_l by lra. lra.
Qed.

Lemma right_triangle_neg (t : R) :
  cos_neg t = - cos_pos t /\ sin_neg t = - sin_pos t.
Proof.
  pose proof (hyp_pos t) as Hp.
  unfold cos_neg, sin_neg, cos_pos, sin_pos. split; field; lra.
Qed.

Lemma kappa_1_above (eps E G : R) :
  1 < G -> eps <> 0 ->
  kappa_1 eps E G
  = Ok (tan_val eps E G, cos_pos (tan_val eps E G), sin_pos (tan_val eps E G)).
Proof.
  intros HG Heps. unfold kappa_1.
  destruct (Rgt_dec G 1) as [_ | Hn]; [ | exfalso; lra].
  assert (Hd : eps * (1 - G) <> 0) by (apply Rmult_integral_contrapositive_currified; [exact Heps | lra]).
  rewrite rdiv_ok by exact Hd. cbn [bind]. fold (tan_val eps E G).
  set (t := tan_val eps E G). pose proof (hyp_pos t) as Hp.
  do 2 (rewrite rsqrt_ok by nra; cbn [bind]; rewrite rdiv_ok by lra; cbn [bind]).
  reflexivity.
Qed.

Lemma kappa_1_below (eps E G : R) :
  G < 1 -> eps <> 0 ->
  kappa_1 eps E G
  = Ok (tan_val eps E G, cos_neg (tan_val eps E G), sin_neg (tan_val eps E G)).
Proof.
  intros HG Heps. unfold kappa_1.
  destruct (Rgt_dec G 1) as [Hn | _]; [exfalso; lra | ].
  destruct (Req_dec_T G 1) as [Hn | _]; [exfalso; lra | ].
  assert (Hd : eps * (1 - G) <> 0) by (apply Rmult_integral_contrapositive_currified; [exact Heps | lra]).
  rewrite rdiv_ok by exact Hd. cbn [bind]. fold (tan_val eps E G).
  set (t := tan_val eps E G). pose proof (hyp_pos t) as Hp.
  do 2 (rewrite rsqrt_ok by nra; cbn [bind]; rewrite rdiv_ok by lra; cbn [bind]).
  reflexivity.
Qed.

Lemma kappa_1_singular (eps E : R) :
  kappa_1 eps E 1
  = let t := if Rgt_dec E 0 then - big else big in
    Ok (t, cos_neg t, sin_neg t).
Proof.
  unfold kappa_1.
  destruct (Rgt_dec 1 1) as [Hn | _]; [exfalso; lra | ].
  destruct (Req_dec_T 1 1) as [_ | Hn]; [ | exfalso; lra].
  destruct (Rgt_dec E 0); cbn [bind];
    match goal with |- context [rsqrt _ _ (1 + ?t ^ 2)] =>
      pose proof (hyp_pos t) as Hp end;
    do 2 (rewrite rsqrt_ok by nra; cbn [bind]; rewrite rdiv_ok by lra; cbn [bind]);
    reflexivity.
Qed.

(** ** Evaluation of the squeeze branch where it is defined *)

Lemma phase_ok (c s : R) : 1 + c <> 0 -> phase c s = Ok (piS_val c s).
Proof.
  intros Hc. unfold phase, piS_val.
  destruct (Req_dec_T (1 + c) 0) as [H0 | _]; [contradiction | ].
  destruct (Rlt_dec (s / (1 + c)) 0); reflexivity.
Qed.

Lemma arctan_term_ok (line : nat) (eps s : R) :
  0 < eps < 1 -> s <> 0 -> arctan_term line eps s = Ok (atan_val eps s).
Proof.
  intros Heps Hs. unfold arctan_term, atan_val.
  rewrite rsqrt_ok by nra. cbn [bind].
  rewrite rdiv_ok by lra. cbn [bind].
  rewrite rdiv_ok by exact Hs. reflexivity.
Qed.

Lemma den_cos_pos (eps c : R) : 0 <= eps < 1 -> c ^ 2 <= 1 -> 0 < 1 - eps ^ 2 * c ^ 2.
Proof. intros [H0 H1] Hc. assert (0 <= c ^ 2) by nra. nra. Qed.

Lemma I1_ok (eps c : R) :
  0 <= eps < 1 -> c ^ 2 <= 1 -> I1 eps c = Ok (I1_val eps c).
Proof.
  intros Heps Hc. unfold I1, I1_val.
  pose proof (den_cos_pos eps c Heps Hc).
  rewrite rdiv_ok by (apply pow_nonzero; lra). reflexivity.
Qed.

Lemma I2_ok (eps c s piS : R) :
  0 < eps < 1 -> c ^ 2 <= 1 -> s <> 0 ->
  I2 eps c s piS = Ok (I2_val eps c s piS).
Proof.
  intros Heps Hc Hs. unfold I2, I2_val.
  assert (Heps' : 0 <= eps < 1) by lra.
  pose proof (den_cos_pos eps c Heps' Hc).
  pose proof (one_minus_sq_pos eps Heps').
  rewrite rdiv_ok by lra. cbn [bind].
  rewrite rdiv_ok by (apply pow_nonzero; lra). cbn [bind].
  rewrite arctan_term_ok by assumption. cbn [bind].
  rewrite rpow_ok by assumption. cbn [bind].
  rewrite rdiv_ok by (apply Rgt_not_eq, Rpower_pos). reflexivity.
Qed.

Lemma I3_ok (eps c s piS : R) :
  0 < eps < 1 -> c ^ 2 <= 1 -> s <> 0 ->
  I3 eps c s piS = Ok (I3_val eps c s piS).
Proof.
  intros Heps Hc Hs. unfold I3, I3_val.
  assert (Heps' : 0 <= eps < 1) by lra.
  pose proof (den_cos_pos eps c Heps' Hc).
  pose proof (one_minus_sq_pos eps Heps').
  rewrite rdiv_ok by (apply pow_nonzero; lra). cbn [bind].
  rewrite rdiv_ok by (apply pow_nonzero; lra). cbn [bind].
  rewrite arctan_term_ok by assumption. cbn [bind].
  rewrite rpow_ok by assumption. cbn [bind].
  rewrite rdiv_ok by (apply Rgt_not_eq, Rpower_pos). reflexivity.
Qed.

Lemma squeeze_ok (eps E G B2D t c s : R) :
  0 < eps < 1 -> kappa_1 eps E G = Ok (t, c, s) ->
  c ^ 2 + s ^ 2 = 1 -> s <> 0 ->
  squeeze eps E G B2D
  = Ok (fr_val eps E G B2D c s, fphi_val eps E G B2D c s).
Proof.
  intros Heps Hk Hcs Hs. unfold squeeze. rewrite Hk. cbn [bind].
  assert (Hs2 : 0 < s ^ 2).
  { destruct (Rtotal_order s 0) as [H | [H | H]]; [nra | contradiction | nra]. }
  assert (Hc2 : c ^ 2 <= 1) by lra.
  assert (Hc : 1 + c <> 0) by nra.
  rewrite phase_ok by exact Hc. cbn [bind].
  rewrite I1_ok by (try lra; assumption). cbn [bind].
  rewrite I2_ok by assumption. cbn [bind].
  rewrite I3_ok by assumption. reflexivity.
Qed.

(** ** The jump of the tangential force across the singular line *)

Lemma I2_minus_I3 (eps c s p : R) :
  0 < eps < 1 -> c ^ 2 <= 1 ->
  I2_val eps c s p - I3_val eps c s p
  = odd_part eps c s - (p + atan_val eps s) * atan_factor eps.
Proof.
  intros Heps Hc. unfold I2_val, I3_val, odd_part, atan_factor.
  assert (Heps' : 0 <= eps < 1) by lra.
  pose proof (den_cos_pos eps c Heps' Hc) as Hw.
  pose proof (one_minus_sq_pos eps Heps') as Hu.
  rewrite Rpower_2_5 by exact Hu.
  pose proof (Rpower_pos (1 - eps ^ 2) 1.5) as HP.
  set (P := Rpower (1 - eps ^ 2) 1.5) in *.
  set (a := atan_val eps s).
  field. repeat split; lra.
Qed.

Lemma squeeze_coefficient_pos (eps c : R) :
  0 < eps < 1 -> c ^ 2 <= 1 -> 0 < 3 - (5 * eps ^ 2 - 2) * c ^ 2.
Proof.
  intros Heps Hc.
  replace (3 - (5 * eps ^ 2 - 2) * c ^ 2)
    with (3 * (1 - c ^ 2) + 5 * (c ^ 2 * (1 - eps ^ 2))) by ring.
  assert (H0 : 0 <= c ^ 2) by nra.
  assert (Hu : 0 < 1 - eps ^ 2) by nra.
  destruct (Rle_lt_dec (c ^ 2) (1 / 2)) as [Hh | Hh].
  - assert (0 <= c ^ 2 * (1 - eps ^ 2)) by (apply Rmult_le_pos; lra). lra.
  - assert (0 < c ^ 2 * (1 - eps ^ 2)) by (apply Rmult_lt_0_compat; lra). lra.
Qed.

Section Jump.

Variables (eps E G B2D c s : R).
Hypothesis Heps : 0 < eps < 1.
Hypothesis HB : B2D <> 0.
Hypothesis Hcs : c ^ 2 + s ^ 2 = 1.

Lemma atan_factor_pos : 0 < atan_factor eps.
Proof.
  unfold atan_factor. apply Rdiv_lt_0_compat; [nra | apply Rpower_pos].
Qed.

Lemma B2_pos : 0 < B2D ^ 2.
Proof.
  destruct (Rtotal_order B2D 0) as [H | [H | H]]; [nra | contradiction | nra].
Qed.

Lemma odd_part_sign :
  (s < 0 -> odd_part eps c s < 0) /\ (0 < s -> 0 < odd_part eps c s).
Proof.
  assert (Hc : c ^ 2 <= 1) by nra.
  assert (Heps' : 0 <= eps < 1) by lra.
  pose proof (den_cos_pos eps c Heps' Hc) as Hw.
  pose proof (one_minus_sq_pos eps Heps') as Hu.
  pose proof (squeeze_coefficient_pos eps c Heps Hc) as Hk.
  assert (Hd : 0 < (1 - eps ^ 2) ^ 2 * (1 - eps ^ 2 * c ^ 2) ^ 2)
    by (apply Rmult_lt_0_compat; apply pow_lt; assumption).
  assert (Hi : 0 < / ((1 - eps ^ 2) ^ 2 * (1 - eps ^ 2 * c ^ 2) ^ 2))
    by (apply Rinv_0_lt_compat; exact Hd).
  unfold odd_part, Rdiv.
  set (k := 3 - (5 * eps ^ 2 - 2) * c ^ 2) in *.
  set (i := / _) in *.
  assert (Hek : 0 < eps * k * i).
  { apply Rmult_lt_0_compat; [apply Rmult_lt_0_compat | ]; lra. }
  replace (eps * s * k * i) with (s * (eps * k * i)) by ring.
  split; intros Hs; nra.
Qed.

Lemma piS_val_sign :
  (s < 0 -> piS_val c s = PI) /\ (0 < s -> piS_val c s = 0).
Proof.
  assert (H1c : s <> 0 -> 0 < / (1 + c)).
  { intros Hs. apply Rinv_0_lt_compat.
    destruct (Rtotal_order s 0) as [H | [H | H]]; [nra | contradiction | nra]. }
  unfold piS_val, Rdiv. split; intros Hs.
  - destruct (Rlt_dec (s * / (1 + c)) 0) as [_ | Hn]; [reflexivity | ].
    exfalso. apply Hn. assert (0 < / (1 + c)) by (apply H1c; lra). nra.
  - destruct (Rlt_dec (s * / (1 + c)) 0) as [Hn | _]; [ | reflexivity].
    exfalso. assert (0 < / (1 + c)) by (apply H1c; lra). nra.
Qed.

(** The term of the rotation never raises the tangential force. *)
Lemma rotation_term_nonpos :
  c * (1 - G) <= 0 -> I1_val eps c * eps * (1 - G) <= 0.
Proof.
  intros HcG.
  assert (Hc : c ^ 2 <= 1) by nra.
  assert (Heps' : 0 <= eps < 1) by lra.
  pose proof (den_cos_pos eps c Heps' Hc) as Hw.
  unfold I1_val, Rdiv.
  assert (Hi : 0 < / (1 - eps ^ 2 * c ^ 2) ^ 2)
    by (apply Rinv_0_lt_compat, pow_lt; exact Hw).
  set (i := / _) in *.
  replace (2 * eps * c ^ 3 * i * eps * (1 - G))
    with ((c * (1 - G)) * (2 * eps ^ 2 * c ^ 2 * i)) by ring.
  assert (0 <= 2 * eps ^ 2 * c ^ 2 * i).
  { apply Rmult_le_pos; [ | lra]. assert (0 <= c ^ 2) by nra. nra. }
  nra.
Qed.

(** Where the sine has the sign opposite to the radial speed, as it has on
    both sides of the singular line, the tangential force stays below the
    level. *)
Lemma fphi_val_below :
  E * s < 0 -> c * (1 - G) <= 0 ->
  fphi_val eps E G B2D c s < jump_level eps E B2D.
Proof.
  intros HEs HcG.
  assert (Hc : c ^ 2 <= 1) by nra.
  unfold fphi_val, jump_level. cbv zeta.
  rewrite I2_minus_I3 by assumption.
  set (K := atan_factor eps). set (T := odd_part eps c s).
  pose proof atan_factor_pos as HK. fold K in HK. pose proof B2_pos as HB2.
  pose proof (rotation_term_nonpos HcG) as HX.
  destruct odd_part_sign as [HTn HTp]. fold T in HTn, HTp.
  destruct piS_val_sign as [Hpn Hpp].
  destruct (atan_bound (sqrt (1 - eps ^ 2) / eps / s)) as [Hlo Hhi].
  fold (atan_val eps s) in Hlo, Hhi.
  rewrite Ropp_mult_distr_r.
  apply Rmult_lt_compat_l; [exact HB2 | ].
  destruct (Rtotal_order s 0) as [Hs | [Hs | Hs]].
  - (* s < 0 < E *)
    assert (HE : 0 < E) by nra.
    rewrite (Hpn Hs). specialize (HTn Hs).
    assert (HJ : PI / 2 * K < (PI + atan_val eps s) * K)
      by (apply Rmult_lt_compat_r; lra).
    assert (HET : E * T < 0) by nra.
    assert (HEJ : E * (PI / 2 * K) < E * ((PI + atan_val eps s) * K))
      by (apply Rmult_lt_compat_l; assumption).
    lra.
  - exfalso. subst s. lra.
  - (* E < 0 < s *)
    assert (HE : E < 0) by nra.
    rewrite (Hpp Hs). specialize (HTp Hs).
    assert (HJ : (0 + atan_val eps s) * K < PI / 2 * K)
      by (apply Rmult_lt_compat_r; lra).
    assert (HET : E * T < 0) by nra.
    assert (HEJ : (- E) * ((0 + atan_val eps s) * K) < (- E) * (PI / 2 * K))
      by (apply Rmult_lt_compat_l; [lra | assumption]).
    lra.
Qed.

(** On the singular line the negated branch with the substituted tangent
    gives, for a positive radial speed, a positive sine, and the tangential
    force lies above the level. *)
Lemma fphi_val_above :
  0 < E -> 0 < s -> G = 1 -> jump_level eps E B2D < fphi_val eps E G B2D c s.
Proof.
  intros HE Hs HG. subst G.
  assert (Hc : c ^ 2 <= 1) by nra.
  unfold fphi_val, jump_level. cbv zeta.
  destruct piS_val_sign as [_ Hpp].
  rewrite (Hpp Hs), I2_minus_I3 by assumption.
  set (K := atan_factor eps). set (T := odd_part eps c s).
  pose proof atan_factor_pos as HK. fold K in HK. pose proof B2_pos as HB2.
  destruct odd_part_sign as [_ HT]. specialize (HT Hs). fold T in HT.
  destruct (atan_bound (sqrt (1 - eps ^ 2) / eps / s)) as [_ Hhi].
  fold (atan_val eps s) in Hhi.
  assert (HJ : (0 + atan_val eps s) * K < PI / 2 * K)
    by (apply Rmult_lt_compat_r; lra).
  assert (HET : 0 < E * T) by nra.
  assert (HEJ : E * ((0 + atan_val eps s) * K) < E * (PI / 2 * K))
    by (apply Rmult_lt_compat_l; assumption).
  rewrite Ropp_mult_distr_r.
  apply Rmult_lt_compat_l; [exact HB2 | ]. lra.
Qed.

End Jump.

Lemma jump_level_odd (eps E B2D : R) :
  jump_level eps E B2D + jump_level eps (- E) B2D = 0.
Proof. unfold jump_level. ring. Qed.

Lemma fun_short_bearing_squeeze (eps epsS phiS B2D : R) :
  epsS <> 0 \/ phiS <> 0 ->
  fun_short_bearing eps epsS phiS B2D = squeeze eps (2 * epsS) (2 * phiS) B2D.
Proof.
  intros H. unfold fun_short_bearing. cbv zeta.
  destruct (Req_dec_T (2 * epsS) 0) as [HE | HE]; [ | reflexivity].
  destruct (Req_dec_T (2 * phiS) 0) as [HG | HG]; [ | reflexivity].
  exfalso. destruct H as [H | H]; apply H; lra.
Qed.

Lemma E_tan_val_sign (eps E G : R) :
  0 < eps -> E <> 0 ->
  (G < 1 -> 0 < E * tan_val eps E G) /\ (1 < G -> E * tan_val eps E G < 0).
Proof.
  intros Heps HE. unfold tan_val.
  assert (HE2 : 0 < E * E)
    by (destruct (Rtotal_order E 0) as [H | [H | H]]; [nra | contradiction | nra]).
  split; intros HG.
  - assert (Hd : 0 < eps * (1 - G)) by (apply Rmult_lt_0_compat; lra).
    replace (E * (E / (eps * (1 - G)))) with (E * E / (eps * (1 - G)))
      by (field; lra).
    apply Rdiv_lt_0_compat; assumption.
  - assert (Hd : 0 < eps * (G - 1)) by (apply Rmult_lt_0_compat; lra).
    replace (E * (E / (eps * (1 - G)))) with (- (E * E / (eps * (G - 1))))
      by (field; split; lra).
    assert (0 < E * E / (eps * (G - 1))) by (apply Rdiv_lt_0_compat; assumption).
    lra.
Qed.

Lemma big_pos : 0 < big.
Proof. unfold big. lra. Qed.

(** Off the singular line the angle is defined, with the sine of the sign
    opposite to the radial speed and the cosine of the sign opposite to
    [1 - G]. *)
Lemma angle_off_singular_line (eps E G : R) :
  0 < eps -> E <> 0 -> G <> 1 ->
  exists t c s : R,
    kappa_1 eps E G = Ok (t, c, s)
    /\ c ^ 2 + s ^ 2 = 1 /\ E * s < 0 /\ c * (1 - G) < 0.
Proof.
  intros Heps HE HG.
  assert (Heps0 : eps <> 0) by lra.
  destruct (E_tan_val_sign eps E G Heps HE) as [Hlt Hgt].
  set (t := tan_val eps E G) in *.
  destruct (right_triangle_pos t) as (Hcs & Hst & Hc0 & Hc1).
  destruct (right_triangle_neg t) as (Hcn & Hsn).
  destruct (Rtotal_order G 1) as [H | [H | H]]; [ | contradiction | ].
  - (* G < 1 : negated branch *)
    specialize (Hlt H).
    exists t, (cos_neg t), (sin_neg t).
    split; [apply kappa_1_below; assumption | ].
    rewrite Hcn, Hsn, Hst. repeat split; [nra | | nra].
    replace (E * - (t * cos_pos t)) with (- ((E * t) * cos_pos t)) by ring.
    assert (0 < E * t * cos_pos t) by (apply Rmult_lt_0_compat; lra). lra.
  - (* 1 < G : positive branch *)
    specialize (Hgt H).
    exists t, (cos_pos t), (sin_pos t).
    split; [apply kappa_1_above; assumption | ].
    rewrite Hst. repeat split; [nra | | nra].
    replace (E * (t * cos_pos t)) with (- ((- (E * t)) * cos_pos t)) by ring.
    assert (0 < - (E * t) * cos_pos t) by (apply Rmult_lt_0_compat; lra). lra.
Qed.

(** Off the singular line the force is defined, with the tangential
    component below [jump_level]. *)
Lemma force_off_singular_line (eps epsS phiS B2D : R) :
  0 < eps < 1 -> epsS <> 0 -> phiS <> 1 / 2 -> B2D <> 0 ->
  exists fr fphi : R,
    fun_short_bearing eps epsS phiS B2D = Ok (fr, fphi)
    /\ fphi < jump_level eps (2 * epsS) B2D.
Proof.
  intros Heps HepsS HphiS HB.
  rewrite fun_short_bearing_squeeze by (left; exact HepsS).
  set (E := 2 * epsS). set (G := 2 * phiS).
  destruct (angle_off_singular_line eps E G) as (t & c & s & Hk & Hcs & HEs & HcG);
    [lra | unfold E; lra | unfold G; lra | ].
  assert (Hs : s <> 0) by (intros ->; lra).
  exists (fr_val eps E G B2D c s), (fphi_val eps E G B2D c s).
  split; [apply squeeze_ok with t; assumption | ].
  apply fphi_val_below; try assumption. lra.
Qed.

(** On the singular line, for a positive radial speed, the force is defined
    as well, with the tangential component above [jump_level]. *)
Lemma force_on_singular_line (eps epsS B2D : R) :
  0 < eps < 1 -> 0 < epsS -> B2D <> 0 ->
  exists fr fphi : R,
    fun_short_bearing eps epsS (1 / 2) B2D = Ok (fr, fphi)
    /\ jump_level eps (2 * epsS) B2D < fphi.
Proof.
  intros Heps HepsS HB.
  rewrite fun_short_bearing_squeeze by (left; lra).
  replace (2 * (1 / 2)) with 1 by lra.
  set (E := 2 * epsS).
  assert (HE : 0 < E) by (unfold E; lra).
  pose proof (kappa_1_singular eps E) as Hk. cbv zeta in Hk.
  destruct (Rgt_dec E 0) as [_ | Hn]; [ | exfalso; lra].
  pose proof big_pos as Hbig.
  destruct (right_triangle_pos (- big)) as (Hcs & Hst & Hc0 & Hc1).
  destruct (right_triangle_neg (- big)) as (Hcn & Hsn).
  assert (Hs : 0 < sin_neg (- big)) by (rewrite Hsn, Hst; nra).
  assert (Hsq : cos_neg (- big) ^ 2 + sin_neg (- big) ^ 2 = 1)
    by (rewrite Hcn, Hsn; nra).
  exists (fr_val eps E 1 B2D (cos_neg (- big)) (sin_neg (- big))),
         (fphi_val eps E 1 B2D (cos_neg (- big)) (sin_neg (- big))).
  split.
  - apply squeeze_ok with (- big); try assumption. lra.
  - apply fphi_val_above; try assumption. reflexivity.
Qed.

(** Sign of the sine of the auxiliary angle for a positive radial speed:
    negative on both sides of the singular line, positive on it. *)
Lemma sine_off_singular_line (eps E G : R) :
  0 < eps -> 0 < E -> G <> 1 ->
  exists t c s : R, kappa_1 eps E G = Ok (t, c, s) /\ s < 0.
Proof.
  intros Heps HE HG.
  destruct (angle_off_singular_line eps E G) as (t & c & s & Hk & _ & HEs & _);
    [lra | lra | exact HG | ].
  exists t, c, s. split; [exact Hk | nra].
Qed.

Lemma sine_on_singular_line (eps E : R) :
  0 < E -> exists t c s : R, kappa_1 eps E 1 = Ok (t, c, s) /\ 0 < s.
Proof.
  intros HE. pose proof (kappa_1_singular eps E) as Hk. cbv zeta in Hk.
  destruct (Rgt_dec E 0) as [_ | Hn]; [ | exfalso; lra].
  exists (- big), (cos_neg (- big)), (sin_neg (- big)).
  split; [exact Hk | ].
  pose proof big_pos as Hbig.
  destruct (right_triangle_pos (- big)) as (Hcs & Hst & Hc0 & Hc1).
  destruct (right_triangle_neg (- big)) as (Hcn & Hsn).
  rewrite Hsn, Hst. nra.
Qed.

(** Reversing both speeds: the two tangential forces add up to less than
    zero. *)
Lemma reversed_speeds_tangential_sum (eps epsS phiS B2D : R) :
  0 < eps < 1 -> B2D <> 0 ->
  epsS <> 0 -> phiS <> 1 / 2 -> phiS <> - (1 / 2) ->
  exists fr fphi fr' fphi' : R,
    fun_short_bearing eps epsS phiS B2D = Ok (fr, fphi)
    /\ fun_short_bearing eps (- epsS) (- phiS) B2D = Ok (fr', fphi')
    /\ fphi + fphi' < 0.
Proof.
  intros Heps HB HepsS Hp Hm.
  destruct (force_off_singular_line eps epsS phiS B2D)
    as (fr & fphi & Hf & Hlt); try assumption.
  destruct (force_off_singular_line eps (- epsS) (- phiS) B2D)
    as (fr' & fphi' & Hf' & Hlt'); try assumption; try lra.
  exists fr, fphi, fr', fphi'. repeat split; try assumption.
  pose proof (jump_level_odd eps (2 * epsS) B2D) as Hodd.
  replace (2 * - epsS) with (- (2 * epsS)) in Hlt' by ring. lra.
Qed.

(** ** Where the squeeze branch stops *)

Lemma kappa_1_defined (eps E G : R) :
  eps <> 0 \/ G = 1 ->
  exists t c s : R, kappa_1 eps E G = Ok (t, c, s) /\ c ^ 2 + s ^ 2 = 1.
Proof.
  intros H.
  assert (Hneg : forall t, cos_neg t ^ 2 + sin_neg t ^ 2 = 1).
  { intros t. destruct (right_triangle_pos t) as (Hcs & _).
    destruct (right_triangle_neg t) as (-> & ->). nra. }
  destruct (Rtotal_order G 1) as [HG | [HG | HG]].
  - destruct H as [H | H]; [ | exfalso; lra].
    eexists _, _, _. split; [apply kappa_1_below; assumption | apply Hneg].
  - subst G. eexists _, _, _. split; [apply kappa_1_singular | apply Hneg].
  - destruct H as [H | H]; [ | exfalso; lra].
    eexists _, _, _. split; [apply kappa_1_above; assumption | ].
    apply right_triangle_pos.
Qed.

(** At [eps = 1] every evaluation runs into a division by zero. *)
Lemma rotation_at_contact :
  rotation 1 = Fault (ZeroDivision 15 "(1-eps**2)**2").
Proof.
  unfold rotation. replace ((1 - 1 ^ 2) ^ 2) with 0 by lra.
  rewrite rdiv_zero. reflexivity.
Qed.

Lemma squeeze_at_contact (E G B2D : R) :
  reaches_division_by_zero (squeeze 1 E G B2D).
Proof.
  destruct (kappa_1_defined 1 E G) as (t & c & s & Hk & Hcs); [left; lra | ].
  unfold reaches_division_by_zero, squeeze. rewrite Hk. cbn [bind].
  destruct (phase c s) as [piS | f] eqn:Hp.
  - cbn [bind]. unfold I1, rdiv at 1.
    destruct (Req_dec_T ((1 - 1 ^ 2 * c ^ 2) ^ 2) 0) as [Hw | Hw];
      [cbn [bind]; eauto | ].
    cbn [bind]. unfold I2. replace (1 - 1 ^ 2) with 0 by lra.
    rewrite rdiv_zero. cbn [bind]. eauto.
  - exfalso. unfold phase in Hp.
    destruct (Req_dec_T (1 + c) 0);
      [destruct (Rlt_dec s 0) | destruct (Rlt_dec (s / (1 + c)) 0)];
      discriminate Hp.
Qed.

(** At [eps = 0], off the singular line, the squeeze branch stops at the
    division by [eps * (1 - G)] of the tangent. *)
Lemma squeeze_at_centre_off_line (E G B2D : R) :
  G <> 1 ->
  squeeze 0 E G B2D
  = Fault (ZeroDivision (if Rgt_dec G 1 then 19 else 29) "eps*(1-G)").
Proof.
  intros HG. unfold squeeze, kappa_1.
  replace (0 * (1 - G)) with 0 by lra.
  destruct (Rgt_dec G 1) as [H | H].
  - rewrite rdiv_zero. reflexivity.
  - destruct (Req_dec_T G 1) as [H1 | _]; [contradiction | ].
    rewrite rdiv_zero. reflexivity.
Qed.

(** ** A vanishing radial speed *)





(** On the singular line a vanishing radial speed gives the zero force. *)
Lemma squeeze_no_squeeze_on_line (eps B2D : R) :
  0 < eps < 1 -> squeeze eps 0 1 B2D = Ok (0, 0).
Proof.
  intros Heps.
  pose proof (kappa_1_singular eps 0) as Hk. cbv zeta in Hk.
  destruct (Rgt_dec 0 0) as [Hn | _]; [exfalso; lra | ].
  pose proof big_pos as Hbig.
  destruct (right_triangle_pos big) as (Hcs & Hst & Hc0 & Hc1).
  destruct (right_triangle_neg big) as (Hcn & Hsn).
  assert (Hs : sin_neg big <> 0) by (rewrite Hsn, Hst; nra).
  assert (Hsq : cos_neg big ^ 2 + sin_neg big ^ 2 = 1)
    by (rewrite Hcn, Hsn; nra).
  rewrite (squeeze_ok eps 0 1 B2D big _ _ Heps Hk Hsq Hs).
  unfold fr_val, fphi_val. cbv zeta. f_equal. f_equal; ring.
Qed.

(** ** The width-to-diameter ratio *)

Lemma squeeze_scale (eps E G c b : R) :
  squeeze eps E G (c * b) = scale (c ^ 2) (squeeze eps E G b).
Proof.
  unfold squeeze.
  destruct (kappa_1 eps E G) as [[[t c0] s] | f]; [ | reflexivity].
  cbn [bind].
  destruct (phase c0 s) as [piS | f]; [ | reflexivity]. cbn [bind].
  destruct (I1 eps c0) as [i1 | f]; [ | reflexivity]. cbn [bind].
  destruct (I2 eps c0 s piS) as [i2 | f]; [ | reflexivity]. cbn [bind].
  destruct (I3 eps c0 s piS) as [i3 | f]; [ | reflexivity]. cbn [bind scale].
  f_equal. f_equal; ring.
Qed.

(** ** Negated speeds at pure rotation *)

Lemma rotation_not_flipped (eps B2D : R) :
  0 < eps < 1 ->
  exists fr fphi : R,
    fun_short_bearing eps 0 0 B2D = Ok (fr, fphi)
    /\ fun_short_bearing eps (- (0)) (- (0)) B2D = Ok (fr, fphi)
    /\ fphi < 0
    /\ fun_short_bearing eps (- (0)) (- (0)) B2D <> Ok (fr, - fphi).
Proof.
  intros Heps.
  assert (Heps' : 0 <= eps < 1) by lra.
  pose proof (one_minus_sq_pos eps Heps') as Hu.
  pose proof (Rpower_pos (1 - eps ^ 2) 1.5) as HP.
  pose proof PI_RGT_0 as Hpi.
  set (fphi := - 0.5 * PI * eps / Rpower (1 - eps ^ 2) 1.5).
  assert (Hneg : fphi < 0).
  { unfold fphi, Rdiv.
    assert (Hi : 0 < / Rpower (1 - eps ^ 2) 1.5)
      by (apply Rinv_0_lt_compat; exact HP).
    assert (Hpe : 0 < PI * eps) by (apply Rmult_lt_0_compat; lra).
    assert (0 < PI * eps * / Rpower (1 - eps ^ 2) 1.5)
      by (apply Rmult_lt_0_compat; assumption).
    nra. }
  exists (2 * eps ^ 2 / (1 - eps ^ 2) ^ 2), fphi.
  replace (- (0)) with 0 by lra.
  rewrite fun_short_bearing_rotation, rotation_ok by exact Heps'.
  repeat split; try assumption.
  intros Heq. apply (f_equal tangential) in Heq. cbn [tangential] in Heq.
  fold fphi in Heq. lra.
Qed.

(** ** The rotor set-up *)

Module JeffcottFacts.

Import Jeffcott.

Lemma dot_zeros (row : vec) (n : nat) : dot row (zeros n) = 0.
Proof.
  unfold dot, zeros. revert n.
  induction row as [ | x row IH]; intros [ | n]; cbn; try reflexivity.
  rewrite IH. lra.
Qed.

Lemma matvec_zeros (X : mat) (n : nat) :
  matvec X (zeros n) = zeros (length X).
Proof.
  unfold matvec. induction X as [ | row X IH]; cbn; [reflexivity | ].
  rewrite dot_zeros, IH. reflexivity.
Qed.

Lemma d_nonneg : 0 <= d.
Proof.
  unfold d. apply Rmult_le_pos; [lra | apply sqrt_pos].
Qed.

Lemma d_exact : d = 1.
Proof.
  unfold d, cs, m. replace (1e5 * 0.1) with (100 * 100) by lra.
  rewrite sqrt_square by lra. lra.
Qed.

Section RightHandSideAtRest.

Variable bearing_journal_short : vec -> R -> R -> R -> R -> R -> vec.
Variable unbalance_const_acc : R -> R -> R -> vec.
Variable state_space : mat -> mat -> mat -> mat * mat.

Hypothesis A_shape : shape 8 8 (A state_space).
Hypothesis Minv_shape : shape 4 4 (Minv state_space).
Hypothesis no_bearing_force :
  bearing_journal_short [0; 0; 0; 0] BB DB CB eta (arot * 0) = [0; 0].
Hypothesis no_unbalance_force : unbalance_const_acc 0 eps arot = [0; 0].

Lemma rotor_Jeffcott_at_rest :
  rotor_Jeffcott bearing_journal_short unbalance_const_acc state_space
                 0 (zeros 8)
  = [0; 0; 0; 0; 0; 0; - g; - g].
Proof.
  unfold rotor_Jeffcott.
  change (take_indices (zeros 8) [0; 2; 4; 6]%nat) with [0; 0; 0; 0].
  rewrite no_bearing_force, no_unbalance_force.
  cbn [smul map nth].
  replace (2 * 0) with 0 by lra.
  change [0; 0; 0; 0] with (zeros 4).
  rewrite !matvec_zeros.
  destruct A_shape as [-> _]. destruct Minv_shape as [-> _].
  unfold gvec. cbn. repeat (f_equal; try lra).
Qed.

End RightHandSideAtRest.

Lemma A_diagonal_shape : shape 8 8 (A state_space_diagonal).
Proof. split; [reflexivity | repeat constructor]. Qed.

Lemma Minv_diagonal_shape : shape 4 4 (Minv state_space_diagonal).
Proof. split; [reflexivity | repeat constructor]. Qed.

Lemma quad4_M (x0 x1 x2 x3 : R) :
  quad4 M x0 x1 x2 x3 = mj * x0 ^ 2 + m * x1 ^ 2 + mj * x2 ^ 2 + m * x3 ^ 2.
Proof. cbn. ring. Qed.

Lemma quad4_coupling (k x0 x1 x2 x3 : R) :
  quad4 (vstack (hstack (mscale k O) (zeros2 2 2))
                (hstack (zeros2 2 2) (mscale k O))) x0 x1 x2 x3
  = k * ((x0 - x1) ^ 2 + (x2 - x3) ^ 2).
Proof. cbn. ring. Qed.

(** C7 (as amended).  At state [q = 0] and [t = 0], with no unbalance and no
    bearing force, the right-hand side is [[0,0,0,0,0,0,-g,-g]]: the only
    nonzero entries are the gravity acceleration [-g] on the two velocity
    components of the y direction, of the journal (index 6) and of the rotor
    mass (index 7); every other component, the x accelerations of journal
    and mass included, is zero. *)
Theorem derivative_at_rest
  (bearing_journal_short : vec -> R -> R -> R -> R -> R -> vec)
  (unbalance_const_acc : R -> R -> R -> vec)
  (state_space : mat -> mat -> mat -> mat * mat)
  (A_shape : shape 8 8 (A state_space))
  (Minv_shape : shape 4 4 (Minv state_space))
  (no_bearing_force :
     bearing_journal_short [0; 0; 0; 0] BB DB CB eta (arot * 0) = [0; 0])
  (no_unbalance_force : unbalance_const_acc 0 eps arot = [0; 0]) :
  rotor_Jeffcott bearing_journal_short unbalance_const_acc state_space
                 0 (zeros 8)
  = [0; 0; 0; 0; 0; 0; - g; - g]
  /\ - g < 0.
Proof.
  split; [apply rotor_Jeffcott_at_rest; assumption | unfold g; lra].
Qed.

Lemma derivative_at_rest_witness :
  rotor_Jeffcott no_force_bearing no_force_unbalance state_space_diagonal
                 0 (zeros 8)
  = [0; 0; 0; 0; 0; 0; - g; - g]
  /\ - g < 0.
Proof.
  apply (derivative_at_rest no_force_bearing no_force_unbalance
                            state_space_diagonal).
  - exact A_diagonal_shape.
  - exact Minv_diagonal_shape.
  - reflexivity.
  - reflexivity.
Defined.

(** C7, counterexample.  With no bearing and no unbalance force and the
    state-space matrices of the spec, the journal acceleration in the y
    direction (index 6) is [-g], not zero, and the acceleration of the rotor
    mass in the x direction (index 5) is zero, not [-g]. *)
Lemma journal_gravity_counterexample :
  nth 6 (rotor_Jeffcott no_force_bearing no_force_unbalance
                        state_space_diagonal 0 (zeros 8)) 0 = - g
  /\ nth 5 (rotor_Jeffcott no_force_bearing no_force_unbalance
                           state_space_diagonal 0 (zeros 8)) 0 = 0
  /\ - g <> 0.
Proof.
  rewrite (rotor_Jeffcott_at_rest no_force_bearing no_force_unbalance
             state_space_diagonal A_diagonal_shape Minv_diagonal_shape
             eq_refl eq_refl).
  cbn [nth]. repeat split. unfold g. lra.
Qed.

(** C8.  The mass matrix is [diag (mj, m, mj, m)]; the damping and the
    stiffness matrix are block-diagonal copies of the coupling block
    [[1,-1],[-1,1]] scaled by [d] and [cs]; each of the three is a 4x4
    matrix, symmetric and positive semi-definite. *)
Theorem system_matrices_invariants (x0 x1 x2 x3 : R) :
  M = [[mj; 0; 0; 0]; [0; m; 0; 0]; [0; 0; mj; 0]; [0; 0; 0; m]]
  /\ D = [[d * 1; d * -1; 0; 0]; [d * -1; d * 1; 0; 0];
          [0; 0; d * 1; d * -1]; [0; 0; d * -1; d * 1]]
  /\ C = [[cs * 1; cs * -1; 0; 0]; [cs * -1; cs * 1; 0; 0];
          [0; 0; cs * 1; cs * -1]; [0; 0; cs * -1; cs * 1]]
  /\ (shape 4 4 M /\ shape 4 4 D /\ shape 4 4 C)
  /\ (transpose M = M /\ transpose D = D /\ transpose C = C)
  /\ 0 <= quad4 M x0 x1 x2 x3
  /\ 0 <= quad4 D x0 x1 x2 x3
  /\ 0 <= quad4 C x0 x1 x2 x3.
Proof.
  split; [reflexivity | ]. split; [reflexivity | ]. split; [reflexivity | ].
  split.
  { repeat split; try reflexivity; repeat constructor. }
  split.
  { repeat split; reflexivity. }
  split; [ | split].
  - rewrite quad4_M. unfold mj, m.
    assert (0 <= x0 ^ 2) by nra. assert (0 <= x1 ^ 2) by nra.
    assert (0 <= x2 ^ 2) by nra. assert (0 <= x3 ^ 2) by nra. lra.
  - unfold D. rewrite quad4_coupling.
    apply Rmult_le_pos; [apply d_nonneg | ].
    apply Rplus_le_le_0_compat; apply pow2_ge_0.
  - unfold C. rewrite quad4_coupling.
    apply Rmult_le_pos; [unfold cs; lra | ].
    apply Rplus_le_le_0_compat; apply pow2_ge_0.
Qed.

End JeffcottFacts.

(** ** The force law: pure rotation *)

(** C1.  For every [eps] in (0,1) and every [B2D], with [epsS = 0] and
    [phiS = 0] the force is [fr = 2 eps^2 / (1 - eps^2)^2] and
    [fphi = -0.5 pi eps / (1 - eps^2)^1.5]; at [(0.5, 0, 0, 0.5)] this is
    [fr = 8/9], about 0.8888889, and [fphi] about -1.2092. *)
Theorem pure_rotation_closed_form (eps B2D : R) (Heps : 0 < eps < 1) :
  fun_short_bearing eps 0 0 B2D
  = Ok (2 * eps ^ 2 / (1 - eps ^ 2) ^ 2,
        - 0.5 * PI * eps / Rpower (1 - eps ^ 2) 1.5)
  /\ exists fphi : R,
       fun_short_bearing 0.5 0 0 0.5 = Ok (8 / 9, fphi)
       /\ Rabs (8 / 9 - 0.8888889) < 1e-7
       /\ Rabs (fphi - - 1.2092) < 1e-5.
Proof.
  split.
  - rewrite fun_short_bearing_rotation. apply rotation_ok. lra.
  - exists (- 0.5 * PI * 0.5 / Rpower (1 - 0.5 ^ 2) 1.5).
    split; [ | split].
    + rewrite fun_short_bearing_rotation, rotation_ok by lra.
      do 2 f_equal. lra.
    + apply Rabs_def1; lra.
    + replace (1 - 0.5 ^ 2) with 0.75 by lra.
      rewrite Rpower_1_5 by lra.
      pose proof PI_bounds as HPI. pose proof sqrt_3_4_bounds as Hs.
      set (s := sqrt 0.75) in *.
      set (v := - 0.5 * PI * 0.5 / (0.75 * s)).
      assert (Hv : v * (0.75 * s) = - 0.25 * PI)
        by (unfold v; rewrite div_mul_cancel; lra).
      apply Rabs_def1; nra.
Qed.

Lemma pure_rotation_closed_form_witness :
  fun_short_bearing 0.7 0 0 0.5
  = Ok (2 * 0.7 ^ 2 / (1 - 0.7 ^ 2) ^ 2,
        - 0.5 * PI * 0.7 / Rpower (1 - 0.7 ^ 2) 1.5).
Proof.
  apply (pure_rotation_closed_form 0.7 0.5). lra.
Defined.

(** C3 (as amended).  Negating both speed inputs does not flip the
    tangential force.  At [epsS = phiS = 0], which the negation leaves in
    place, the force is unchanged and its tangential component is strictly
    negative; for [epsS <> 0] and [phiS] other than 1/2 and -1/2 the forces
    [(fr, fphi)] at [(epsS, phiS)] and [(fr', fphi')] at [(-epsS, -phiS)]
    are both defined and [fphi + fphi' < 0]. *)
Theorem reversed_speeds_do_not_flip
  (eps epsS phiS B2D : R) (Heps : 0 < eps < 1) (HB : B2D <> 0) :
  (exists fr fphi : R,
      fun_short_bearing eps 0 0 B2D = Ok (fr, fphi)
      /\ fun_short_bearing eps (- (0)) (- (0)) B2D = Ok (fr, fphi)
      /\ fphi < 0)
  /\ (epsS <> 0 -> phiS <> 1 / 2 -> phiS <> - (1 / 2) ->
      exists fr fphi fr' fphi' : R,
        fun_short_bearing eps epsS phiS B2D = Ok (fr, fphi)
        /\ fun_short_bearing eps (- epsS) (- phiS) B2D = Ok (fr', fphi')
        /\ fphi + fphi' < 0).
Proof.
  split.
  - destruct (rotation_not_flipped eps B2D Heps) as (fr & fphi & H1 & H2 & H3 & _).
    exists fr, fphi. auto.
  - intros HepsS Hp Hm. apply reversed_speeds_tangential_sum; assumption.
Qed.

Lemma reversed_speeds_do_not_flip_witness :
  exists fr fphi fr' fphi' : R,
    fun_short_bearing 0.7 1 1 0.5 = Ok (fr, fphi)
    /\ fun_short_bearing 0.7 (- (1)) (- (1)) 0.5 = Ok (fr', fphi')
    /\ fphi + fphi' < 0.
Proof.
  assert (Heps : 0 < 0.7 < 1) by lra.
  assert (HB : 0.5 <> 0) by lra.
  apply (proj2 (reversed_speeds_do_not_flip 0.7 1 1 0.5 Heps HB)); lra.
Defined.

(** C3, counterexample.  At [(eps, epsS, phiS, B2D) = (0.7, 1, 1, 0.5)] the
    force with both speeds negated is not [(fr, -fphi)]; neither is it at
    [(0.5, 0, 0, 0.5)]. *)
Lemma speed_negation_counterexample :
  (exists fr fphi : R,
      fun_short_bearing 0.7 1 1 0.5 = Ok (fr, fphi)
      /\ fun_short_bearing 0.7 (- (1)) (- (1)) 0.5 <> Ok (fr, - fphi))
  /\ (exists fr fphi : R,
      fun_short_bearing 0.5 0 0 0.5 = Ok (fr, fphi)
      /\ fun_short_bearing 0.5 (- (0)) (- (0)) 0.5 <> Ok (fr, - fphi)).
Proof.
  split.
  - destruct (reversed_speeds_tangential_sum 0.7 1 1 0.5)
      as (fr & fphi & fr' & fphi' & H1 & H2 & H3); try lra.
    exists fr, fphi. split; [exact H1 | ].
    rewrite H2. intros Heq. apply (f_equal tangential) in Heq.
    cbn [tangential] in Heq. lra.
  - destruct (rotation_not_flipped 0.5 0.5) as (fr & fphi & H1 & H2 & H3 & H4);
      [lra | ].
    exists fr, fphi. auto.
Qed.

(** ** The force law: the singular line [G = 1] *)

(** C2.  The claim is that the force is continuous in [phiS] at
    [phiS = 1/2], the substituted tangent giving the cosine and sine of the
    one-sided limits.  Around the fixture [(0.7, 1, 1/2, 0.5)], where
    [E = 2]: the sine of the auxiliary angle is negative for every [G <> 1]
    and positive at [G = 1]; the force is defined for every [phiS], its
    tangential component stays below [jump_level] for every [phiS <> 1/2]
    and lies above it at [phiS = 1/2]: it is not continuous there. *)
Theorem tangential_force_jumps_at_G_1 :
  (forall G : R, G <> 1 ->
      exists t c s : R, kappa_1 0.7 2 G = Ok (t, c, s) /\ s < 0)
  /\ (exists t c s : R, kappa_1 0.7 2 1 = Ok (t, c, s) /\ 0 < s)
  /\ (forall phiS : R, exists fr fphi : R,
      fun_short_bearing 0.7 1 phiS 0.5 = Ok (fr, fphi))
  /\ (forall phiS : R, phiS <> 1 / 2 ->
      tangential (fun_short_bearing 0.7 1 phiS 0.5) < jump_level 0.7 2 0.5)
  /\ jump_level 0.7 2 0.5 < tangential (fun_short_bearing 0.7 1 (1 / 2) 0.5)
  /\ ~ continuity_pt
        (fun phiS => tangential (fun_short_bearing 0.7 1 phiS 0.5)) (1 / 2).
Proof.
  assert (Hoff : forall phiS : R, phiS <> 1 / 2 ->
      tangential (fun_short_bearing 0.7 1 phiS 0.5) < jump_level 0.7 2 0.5).
  { intros phiS Hp.
    destruct (force_off_singular_line 0.7 1 phiS 0.5) as (fr & fphi & Hf & Hlt);
      try lra.
    rewrite Hf. cbn [tangential]. replace 2 with (2 * 1) by lra. exact Hlt. }
  assert (Hon : jump_level 0.7 2 0.5
                < tangential (fun_short_bearing 0.7 1 (1 / 2) 0.5)).
  { destruct (force_on_singular_line 0.7 1 0.5) as (fr & fphi & Hf & Hlt);
      try lra.
    rewrite Hf. cbn [tangential]. replace 2 with (2 * 1) by lra. exact Hlt. }
  split; [intros G HG; apply sine_off_singular_line; lra | ].
  split; [apply sine_on_singular_line; lra | ].
  repeat split; try assumption.
  - intros phiS. destruct (Req_dec_T phiS (1 / 2)) as [-> | Hp].
    + destruct (force_on_singular_line 0.7 1 0.5) as (fr & fphi & Hf & _);
        try lra.
      exists fr, fphi. exact Hf.
    + destruct (force_off_singular_line 0.7 1 phiS 0.5) as (fr & fphi & Hf & _);
        try lra.
      exists fr, fphi. exact Hf.
  - intros Hcont.
    set (f := fun phiS => tangential (fun_short_bearing 0.7 1 phiS 0.5)) in *.
    set (L := jump_level 0.7 2 0.5) in *.
    assert (Hon' : L < f (1 / 2)) by exact Hon.
    assert (Hgap : f (1 / 2) - L > 0) by lra.
    destruct (Hcont _ Hgap) as (alp & Halp & Hd).
    specialize (Hd (1 / 2 + alp / 2)).
    assert (Hne : 1 / 2 + alp / 2 <> 1 / 2) by lra.
    assert (Hoff' : f (1 / 2 + alp / 2) < L) by exact (Hoff _ Hne).
    cbn in Hd. unfold Rdist, D_x, no_cond in Hd.
    assert (Hpre : (True /\ 1 / 2 <> 1 / 2 + alp / 2)
                   /\ Rabs (1 / 2 + alp / 2 - 1 / 2) < alp).
    { split; [split; [exact I | lra] | ].
      apply Rabs_def1; lra. }
    specialize (Hd Hpre). apply Rabs_def2 in Hd. lra.
Qed.

(** C4.  Selection of the auxiliary angle: for [G > 1] the tangent is
    [E / (eps (1 - G))] with cosine and sine from the right-triangle
    identities; for [G < 1] the same tangent with both negated; for [G = 1]
    the tangent is [-1e16] when [E > 0] and [1e16] otherwise, with cosine
    and sine negated. *)
Theorem kappa_1_branch_selection (eps E G : R) :
  (1 < G -> eps <> 0 ->
     kappa_1 eps E G
     = Ok (E / (eps * (1 - G)),
           cos_pos (E / (eps * (1 - G))), sin_pos (E / (eps * (1 - G)))))
  /\ (G < 1 -> eps <> 0 ->
     kappa_1 eps E G
     = Ok (E / (eps * (1 - G)),
           - cos_pos (E / (eps * (1 - G))), - sin_pos (E / (eps * (1 - G)))))
  /\ (G = 1 -> 0 < E ->
     kappa_1 eps E G = Ok (- 1e16, - cos_pos (- 1e16), - sin_pos (- 1e16)))
  /\ (G = 1 -> E <= 0 ->
     kappa_1 eps E G = Ok (1e16, - cos_pos 1e16, - sin_pos 1e16))
  /\ (forall t : R,
        cos_pos t = 1 / sqrt (1 + t ^ 2) /\ sin_pos t = t / sqrt (1 + t ^ 2)
        /\ 0 < cos_pos t /\ cos_pos t ^ 2 + sin_pos t ^ 2 = 1
        /\ sin_pos t = t * cos_pos t).
Proof.
  repeat split.
  - intros HG Heps. apply kappa_1_above; assumption.
  - intros HG Heps. rewrite kappa_1_below by assumption.
    destruct (right_triangle_neg (tan_val eps E G)) as (-> & ->). reflexivity.
  - intros -> HE. rewrite kappa_1_singular. cbv zeta.
    destruct (Rgt_dec E 0) as [_ | Hn]; [ | exfalso; lra].
    destruct (right_triangle_neg (- big)) as (-> & ->).
    replace (-1e16) with (- big) by (unfold big; lra). reflexivity.
  - intros -> HE. rewrite kappa_1_singular. cbv zeta.
    destruct (Rgt_dec E 0) as [Hn | _]; [exfalso; lra | ].
    destruct (right_triangle_neg big) as (-> & ->). reflexivity.
  - apply right_triangle_pos.
  - apply right_triangle_pos.
  - apply right_triangle_pos.
Qed.

Lemma kappa_1_branch_selection_witness :
  kappa_1 0.7 2 2
  = Ok (2 / (0.7 * (1 - 2)),
        cos_pos (2 / (0.7 * (1 - 2))), sin_pos (2 / (0.7 * (1 - 2))))
  /\ kappa_1 0.7 2 0
  = Ok (2 / (0.7 * (1 - 0)),
        - cos_pos (2 / (0.7 * (1 - 0))), - sin_pos (2 / (0.7 * (1 - 0))))
  /\ kappa_1 0.7 2 1 = Ok (- 1e16, - cos_pos (- 1e16), - sin_pos (- 1e16))
  /\ kappa_1 0.7 0 1 = Ok (1e16, - cos_pos 1e16, - sin_pos 1e16).
Proof.
  repeat split.
  - apply (proj1 (kappa_1_branch_selection 0.7 2 2)); lra.
  - apply (proj1 (proj2 (kappa_1_branch_selection 0.7 2 0))); lra.
  - apply (proj1 (proj2 (proj2 (kappa_1_branch_selection 0.7 2 1)))); lra.
  - apply (proj1 (proj2 (proj2 (proj2 (kappa_1_branch_selection 0.7 0 1)))));
      lra.
Defined.

(** ** The force law: the ends of the eccentricity range *)

(** C5 (as amended).  For [eps] in [0,1) and [|cos kappa_1| <= 1] the
    denominators [1 - eps^2] and [1 - eps^2 cos^2 kappa_1] are strictly
    positive and the divisions of the rotation formulas and of I1, I2, I3
    are defined.  At [eps = 1] the denominator [1 - eps^2] is zero, while
    [1 - eps^2 cos^2 kappa_1] is [1 - cos^2 kappa_1]; nothing is clamped and
    every evaluation of the force runs into a division by zero. *)
Theorem denominators_positive_below_contact
  (eps c : R) (Heps : 0 <= eps < 1) (Hc : Rabs c <= 1) :
  0 < den_eps eps /\ 0 < den_cos eps c
  /\ rotation eps
     = Ok (2 * eps ^ 2 / den_eps eps ^ 2,
           - 0.5 * PI * eps / Rpower (den_eps eps) 1.5)
  /\ I1 eps c = Ok (2 * eps * c ^ 3 / den_cos eps c ^ 2)
  /\ (forall s piS : R, 0 < eps -> s <> 0 ->
        I2 eps c s piS = Ok (I2_val eps c s piS)
        /\ I3 eps c s piS = Ok (I3_val eps c s piS))
  /\ den_eps 1 = 0 /\ den_cos 1 c = 1 - c ^ 2
  /\ (forall epsS phiS B2D : R,
        reaches_division_by_zero (fun_short_bearing 1 epsS phiS B2D)).
Proof.
  assert (Hc2 : c ^ 2 <= 1).
  { assert (-1 <= c <= 1)
      by (unfold Rabs in Hc; destruct (Rcase_abs c); lra).
    nra. }
  split; [apply one_minus_sq_pos; exact Heps | ].
  split; [apply one_minus_sq_cos_pos; assumption | ].
  split; [apply rotation_ok; exact Heps | ].
  split; [apply I1_ok; assumption | ].
  split.
  { intros s piS H0 Hs. split; [apply I2_ok | apply I3_ok]; try assumption; lra. }
  split; [unfold den_eps; lra | ].
  split; [unfold den_cos; lra | ].
  intros epsS phiS B2D. unfold fun_short_bearing. cbv zeta.
  destruct (Req_dec_T (2 * epsS) 0); [destruct (Req_dec_T (2 * phiS) 0) | ];
    try apply squeeze_at_contact.
  rewrite rotation_at_contact. unfold reaches_division_by_zero. eauto.
Qed.

Lemma denominators_positive_below_contact_witness :
  0 < den_eps 0.7 /\ 0 < den_cos 0.7 (- 1).
Proof.
  assert (Hc : Rabs (- 1) <= 1)
    by (unfold Rabs; destruct (Rcase_abs (- 1)); lra).
  assert (Heps : 0 <= 0.7 < 1) by lra.
  pose proof (denominators_positive_below_contact 0.7 (- 1) Heps Hc) as H.
  split; [exact (proj1 H) | exact (proj1 (proj2 H))].
Defined.

(** C5, counterexample.  At [eps = 1], [E = 2], [G = 2] the angle is
    defined, [|cos kappa_1| <= 1], and the denominator
    [1 - eps^2 cos^2 kappa_1] is strictly positive, not zero. *)
Lemma den_cos_positive_at_contact :
  exists t c s : R,
    kappa_1 1 2 2 = Ok (t, c, s) /\ Rabs c <= 1 /\ 0 < den_cos 1 c.
Proof.
  exists (tan_val 1 2 2), (cos_pos (tan_val 1 2 2)), (sin_pos (tan_val 1 2 2)).
  destruct (right_triangle_pos (tan_val 1 2 2)) as (Hcs & Hst & Hc0 & Hc1).
  assert (Ht : tan_val 1 2 2 = - 2) by (unfold tan_val; field).
  split; [apply kappa_1_above; lra | ].
  split; [apply Rabs_le; lra | ].
  unfold den_cos. rewrite Ht in *. nra.
Qed.

(** C6 (as amended).  With [eps = 0] in the rotation-and-squeeze branch
    the condition is not classified and no DomainViolation is produced: for
    [G <> 1] the evaluation proceeds into the unguarded division by
    [eps (1 - G)] of the tangent (line 19 or 29) and is stopped there by
    the error of that division itself, Python's ZeroDivisionError, so that
    no sine is obtained; the auxiliary angle is returned for [eps = 0] only
    on the line [G = 1], where the sine is not zero. *)
Theorem centre_input_unguarded
  (epsS phiS B2D : R) (Hsq : epsS <> 0 \/ phiS <> 0) (HG : 2 * phiS <> 1) :
  fun_short_bearing 0 epsS phiS B2D
  = Fault (ZeroDivision (if Rgt_dec (2 * phiS) 1 then 19 else 29)
                        "eps*(1-G)")
  /\ observed (fun_short_bearing 0 epsS phiS B2D) = Raises ZeroDivisionError
  /\ observed (fun_short_bearing 0 epsS phiS B2D) <> Raises DomainViolation
  /\ reaches_division_by_zero (fun_short_bearing 0 epsS phiS B2D)
  /\ (forall E G t c s : R, kappa_1 0 E G = Ok (t, c, s) -> G = 1 /\ s <> 0).
Proof.
  assert (Hf : fun_short_bearing 0 epsS phiS B2D
               = Fault (ZeroDivision (if Rgt_dec (2 * phiS) 1 then 19 else 29)
                                     "eps*(1-G)")).
  { rewrite fun_short_bearing_squeeze by exact Hsq.
    apply squeeze_at_centre_off_line. exact HG. }
  assert (Ho : observed (fun_short_bearing 0 epsS phiS B2D)
               = Raises ZeroDivisionError).
  { rewrite Hf. destruct (Rgt_dec (2 * phiS) 1); reflexivity. }
  split; [exact Hf | ]. split; [exact Ho | ].
  split; [rewrite Ho; discriminate | ].
  split; [rewrite Hf; unfold reaches_division_by_zero; eauto | ].
  intros E G t c s Hk.
  destruct (Req_dec_T G 1) as [-> | HG1].
  - split; [reflexivity | ].
    rewrite kappa_1_singular in Hk. cbv zeta in Hk.
    apply (f_equal (fun o : outcome (R * R * R) =>
                      match o with Ok (_, _, d) => d | Fault _ => 0 end)) in Hk.
    cbn in Hk. subst s.
    set (u := if Rgt_dec E 0 then - big else big).
    destruct (right_triangle_pos u) as (Hcs & Hst & Hc0 & Hc1).
    destruct (right_triangle_neg u) as (Hcn & Hsn).
    assert (Hu : u <> 0)
      by (unfold u; pose proof big_pos; destruct (Rgt_dec E 0); lra).
    rewrite Hsn, Hst. intros H0.
    assert (Hm : u * cos_pos u = 0) by lra.
    apply Rmult_integral in Hm. destruct Hm; lra.
  - exfalso. unfold kappa_1 in Hk.
    replace (0 * (1 - G)) with 0 in Hk by lra.
    destruct (Rgt_dec G 1).
    + rewrite rdiv_zero in Hk. discriminate Hk.
    + destruct (Req_dec_T G 1); [contradiction | ].
      rewrite rdiv_zero in Hk. discriminate Hk.
Qed.

Lemma centre_input_unguarded_witness :
  fun_short_bearing 0 0 (- 0.5) 0.5
  = Fault (ZeroDivision (if Rgt_dec (2 * - 0.5) 1 then 19 else 29)
                        "eps*(1-G)")
  /\ observed (fun_short_bearing 0 0 (- 0.5) 0.5) = Raises ZeroDivisionError.
Proof.
  assert (Hsq : 0 <> 0 \/ - 0.5 <> 0) by (right; lra).
  assert (HG : 2 * - 0.5 <> 1) by lra.
  pose proof (centre_input_unguarded 0 (- 0.5) 0.5 Hsq HG) as H.
  split; [exact (proj1 H) | exact (proj1 (proj2 H))].
Defined.

(** C6, counterexample.  At [(eps, epsS, phiS, B2D) = (0, 0, 1, 0.5)] the
    evaluation proceeds into the division by [eps (1 - G)] of line 19 and
    stops there with a division by zero. *)
Lemma centre_input_reaches_division :
  fun_short_bearing 0 0 1 0.5 = Fault (ZeroDivision 19 "eps*(1-G)")
  /\ reaches_division_by_zero (fun_short_bearing 0 0 1 0.5).
Proof.
  assert (H : fun_short_bearing 0 0 1 0.5
              = Fault (ZeroDivision 19 "eps*(1-G)")).
  { rewrite fun_short_bearing_squeeze by (right; lra).
    rewrite squeeze_at_centre_off_line by lra.
    destruct (Rgt_dec (2 * 1) 1) as [_ | Hn]; [reflexivity | exfalso; lra]. }
  split; [exact H | ]. rewrite H. unfold reaches_division_by_zero. eauto.
Qed.

(** ** The force law: vanishing radial speed, and the width ratio *)




(** C10.  With [epsS = phiS = 0] the force does not depend on [B2D]; for
    [(epsS, phiS) <> (0, 0)] both components scale with the square of
    [B2D]: the force at [c * b] is [c^2] times the force at [b]. *)
Theorem B2D_scaling
  (eps epsS phiS c b b1 b2 : R) (Hsq : (epsS, phiS) <> (0, 0)) :
  fun_short_bearing eps 0 0 b1 = fun_short_bearing eps 0 0 b2
  /\ fun_short_bearing eps epsS phiS (c * b)
     = scale (c ^ 2) (fun_short_bearing eps epsS phiS b).
Proof.
  split.
  - rewrite !fun_short_bearing_rotation. reflexivity.
  - assert (H : epsS <> 0 \/ phiS <> 0).
    { destruct (Req_dec_T epsS 0) as [-> | He]; [ | left; exact He].
      right. intros ->. apply Hsq. reflexivity. }
    rewrite !fun_short_bearing_squeeze by exact H. apply squeeze_scale.
Qed.

Lemma B2D_scaling_witness :
  fun_short_bearing 0.7 1 1 (3 * 0.5)
  = scale (3 ^ 2) (fun_short_bearing 0.7 1 1 0.5).
Proof.
  assert (Hsq : (1, 1) <> (0, 0)).
  { intros H. apply (f_equal fst) in H. cbn in H. lra. }
  exact (proj2 (B2D_scaling 0.7 1 1 3 0.5 0.5 0.5 Hsq)).
Defined.

(** ** Further properties of the force law *)

(** *** Where the force has a value *)

Lemma squeeze_defined (eps E G B2D : R) :
  0 < eps < 1 -> E <> 0 ->
  exists t c s : R,
    kappa_1 eps E G = Ok (t, c, s) /\ c ^ 2 + s ^ 2 = 1 /\ s <> 0
    /\ squeeze eps E G B2D
       = Ok (fr_val eps E G B2D c s, fphi_val eps E G B2D c s).
Proof.
  intros Heps HE.
  destruct (Req_dec_T G 1) as [-> | HG].
  - pose proof (kappa_1_singular eps E) as Hk. cbv zeta in Hk.
    set (t := if Rgt_dec E 0 then - big else big) in *.
    destruct (right_triangle_pos t) as (Hcs & Hst & Hc0 & Hc1).
    destruct (right_triangle_neg t) as (Hcn & Hsn).
    assert (Ht : t <> 0)
      by (unfold t; pose proof big_pos; destruct (Rgt_dec E 0); lra).
    assert (Hs : sin_neg t <> 0).
    { rewrite Hsn, Hst. intros H0.
      assert (Hm : t * cos_pos t = 0) by lra.
      apply Rmult_integral in Hm. destruct Hm; lra. }
    assert (Hsq : cos_neg t ^ 2 + sin_neg t ^ 2 = 1)
      by (rewrite Hcn, Hsn; nra).
    exists t, (cos_neg t), (sin_neg t). repeat split; try assumption.
    apply squeeze_ok with t; assumption.
  - destruct (angle_off_singular_line eps E G)
      as (t & c & s & Hk & Hcs & HEs & HcG); [lra | exact HE | exact HG | ].
    assert (Hs : s <> 0) by (intros ->; lra).
    exists t, c, s. repeat split; try assumption.
    apply squeeze_ok with t; assumption.
Qed.

Lemma rotation_inside (eps : R) :
  eps ^ 2 < 1 ->
  rotation eps
  = Ok (2 * eps ^ 2 / (1 - eps ^ 2) ^ 2,
        - 0.5 * PI * eps / Rpower (1 - eps ^ 2) 1.5).
Proof.
  intros Heps. unfold rotation.
  rewrite rdiv_ok by (apply pow_nonzero; lra). cbn [bind].
  rewrite rpow_ok by lra. cbn [bind].
  rewrite rdiv_ok by (apply Rgt_not_eq, Rpower_pos). reflexivity.
Qed.

(** X1.  For an eccentricity in (0,1) no operation of the force law meets
    a zero divisor, and the force has a value, whenever the radial speed is
    not zero, or both speeds are zero, or the radial speed is zero on the
    line [phiS = 1/2]; in the last case the force is zero. *)
Theorem force_defined
  (eps epsS phiS B2D : R) (Heps : 0 < eps < 1)
  (Hd : epsS <> 0 \/ phiS = 0 \/ phiS = 1 / 2) :
  (exists fr fphi : R,
      fun_short_bearing eps epsS phiS B2D = Ok (fr, fphi)
      /\ observed (fun_short_bearing eps epsS phiS B2D) = Returns fr fphi)
  /\ fun_short_bearing eps 0 (1 / 2) B2D = Ok (0, 0).
Proof.
  assert (Hline : fun_short_bearing eps 0 (1 / 2) B2D = Ok (0, 0)).
  { rewrite fun_short_bearing_squeeze by (right; lra).
    replace (2 * 0) with 0 by lra. replace (2 * (1 / 2)) with 1 by lra.
    apply squeeze_no_squeeze_on_line. exact Heps. }
  split; [ | exact Hline].
  assert (Hv : exists fr fphi : R,
             fun_short_bearing eps epsS phiS B2D = Ok (fr, fphi)).
  { destruct (Req_dec_T epsS 0) as [-> | He].
    - destruct Hd as [H | [-> | ->]]; [now elim H | | ].
      + rewrite fun_short_bearing_rotation, rotation_ok by lra. eauto.
      + rewrite Hline. eauto.
    - rewrite fun_short_bearing_squeeze by (left; exact He).
      destruct (squeeze_defined eps (2 * epsS) (2 * phiS) B2D)
        as (t & c & s & _ & _ & _ & Hs); [exact Heps | lra | ].
      rewrite Hs. eauto. }
  destruct Hv as (fr & fphi & Hv). exists fr, fphi.
  split; [exact Hv | rewrite Hv; reflexivity].
Qed.

Lemma force_defined_witness :
  exists fr fphi : R,
    fun_short_bearing 0.7 1 1 0.5 = Ok (fr, fphi)
    /\ observed (fun_short_bearing 0.7 1 1 0.5) = Returns fr fphi.
Proof.
  assert (Heps : 0 < 0.7 < 1) by lra.
  assert (Hd : 1 <> 0 \/ 1 = 0 \/ 1 = 1 / 2) by (left; lra).
  exact (proj1 (force_defined 0.7 1 1 0.5 Heps Hd)).
Defined.

(** *** The rotation branch *)

Lemma Rpower_1_5_increasing (u v : R) :
  0 < u -> u < v -> Rpower u 1.5 < Rpower v 1.5.
Proof.
  intros Hu Huv. rewrite !Rpower_1_5 by lra.
  assert (Hs : sqrt u < sqrt v) by (apply sqrt_lt_1; lra).
  assert (Hsu : 0 < sqrt u) by (apply sqrt_lt_R0; exact Hu).
  nra.
Qed.

(** X3.  With both speeds zero the radial force is even and the tangential
    force odd in the eccentricity: for [eps] in (-1,1) the force at [-eps]
    is [(fr, -fphi)]; at [eps = 0] the force is zero. *)
Theorem rotation_parity (eps B2D : R) (Heps : - 1 < eps < 1) :
  (exists fr fphi : R,
      fun_short_bearing eps 0 0 B2D = Ok (fr, fphi)
      /\ fun_short_bearing (- eps) 0 0 B2D = Ok (fr, - fphi))
  /\ fun_short_bearing 0 0 0 B2D = Ok (0, 0).
Proof.
  assert (H2 : eps ^ 2 < 1) by nra.
  split.
  - exists (2 * eps ^ 2 / (1 - eps ^ 2) ^ 2),
           (- 0.5 * PI * eps / Rpower (1 - eps ^ 2) 1.5).
    rewrite !fun_short_bearing_rotation.
    split; [apply rotation_inside; exact H2 | ].
    rewrite rotation_inside by nra.
    replace ((- eps) ^ 2) with (eps ^ 2) by ring.
    f_equal. f_equal. unfold Rdiv.
    set (i := / Rpower (1 - eps ^ 2) 1.5). nra.
  - rewrite fun_short_bearing_rotation, rotation_inside by nra.
    f_equal. f_equal; unfold Rdiv.
    + replace (0 ^ 2) with 0 by lra. lra.
    + set (i := / Rpower (1 - 0 ^ 2) 1.5). nra.
Qed.

Lemma rotation_parity_witness :
  exists fr fphi : R,
    fun_short_bearing 0.7 0 0 0.5 = Ok (fr, fphi)
    /\ fun_short_bearing (- (0.7)) 0 0 0.5 = Ok (fr, - fphi).
Proof.
  assert (Heps : - 1 < 0.7 < 1) by lra.
  exact (proj1 (rotation_parity 0.7 0.5 Heps)).
Defined.

(** X4.  With both speeds zero the force stiffens with the eccentricity: on
    [0,1) the radial force is nonnegative and strictly increasing, the
    tangential force is nonpositive and strictly decreasing. *)
Theorem rotation_monotone
  (e1 e2 B2D : R) (He : 0 <= e1 < e2) (He2 : e2 < 1) :
  exists fr1 fphi1 fr2 fphi2 : R,
    fun_short_bearing e1 0 0 B2D = Ok (fr1, fphi1)
    /\ fun_short_bearing e2 0 0 B2D = Ok (fr2, fphi2)
    /\ 0 <= fr1 < fr2 /\ fphi2 < fphi1 <= 0.
Proof.
  assert (H1 : 0 <= e1 < 1) by lra. assert (H2 : 0 <= e2 < 1) by lra.
  pose proof (one_minus_sq_pos e1 H1) as Hu1.
  pose proof (one_minus_sq_pos e2 H2) as Hu2.
  assert (Hu : 1 - e2 ^ 2 < 1 - e1 ^ 2) by nra.
  eexists _, _, _, _.
  rewrite !fun_short_bearing_rotation.
  split; [apply rotation_ok; exact H1 | ].
  split; [apply rotation_ok; exact H2 | ].
  split.
  - (* radial force *)
    assert (Hi1 : 0 < / (1 - e1 ^ 2) ^ 2) by (apply Rinv_0_lt_compat, pow_lt; lra).
    assert (Hi2 : 0 < / (1 - e2 ^ 2) ^ 2) by (apply Rinv_0_lt_compat, pow_lt; lra).
    assert (Hi : / (1 - e1 ^ 2) ^ 2 < / (1 - e2 ^ 2) ^ 2).
    { apply Rinv_lt_contravar; [apply Rmult_lt_0_compat; apply pow_lt; lra | nra]. }
    unfold Rdiv.
    set (i1 := / (1 - e1 ^ 2) ^ 2) in *. set (i2 := / (1 - e2 ^ 2) ^ 2) in *.
    assert (Ha : 0 <= e1 ^ 2) by nra. assert (Hb : e1 ^ 2 < e2 ^ 2) by nra.
    split; [apply Rmult_le_pos; lra | ].
    apply Rle_lt_trans with (2 * e1 ^ 2 * i2).
    + apply Rmult_le_compat_l; lra.
    + apply Rmult_lt_compat_r; lra.
  - (* tangential force *)
    pose proof (Rpower_pos (1 - e1 ^ 2) 1.5) as HP1.
    pose proof (Rpower_pos (1 - e2 ^ 2) 1.5) as HP2.
    pose proof (Rpower_1_5_increasing _ _ Hu2 Hu) as HP.
    assert (Hi1 : 0 < / Rpower (1 - e1 ^ 2) 1.5) by (apply Rinv_0_lt_compat; lra).
    assert (Hi2 : 0 < / Rpower (1 - e2 ^ 2) 1.5) by (apply Rinv_0_lt_compat; lra).
    assert (Hi : / Rpower (1 - e1 ^ 2) 1.5 < / Rpower (1 - e2 ^ 2) 1.5).
    { apply Rinv_lt_contravar; [apply Rmult_lt_0_compat; lra | exact HP]. }
    unfold Rdiv.
    set (i1 := / Rpower (1 - e1 ^ 2) 1.5) in *.
    set (i2 := / Rpower (1 - e2 ^ 2) 1.5) in *.
    pose proof PI_RGT_0 as Hpi.
    assert (Hq1 : e1 * i1 <= e1 * i2) by (apply Rmult_le_compat_l; lra).
    assert (Hq2 : e1 * i2 < e2 * i2) by (apply Rmult_lt_compat_r; lra).
    assert (Hq0 : 0 <= e1 * i1) by (apply Rmult_le_pos; lra).
    assert (Hp1 : PI * (e1 * i1) < PI * (e2 * i2))
      by (apply Rmult_lt_compat_l; lra).
    assert (Hp0 : 0 <= PI * (e1 * i1)) by (apply Rmult_le_pos; lra).
    split; nra.
Qed.

Lemma rotation_monotone_witness :
  exists fr1 fphi1 fr2 fphi2 : R,
    fun_short_bearing 0.5 0 0 0.5 = Ok (fr1, fphi1)
    /\ fun_short_bearing 0.7 0 0 0.5 = Ok (fr2, fphi2)
    /\ 0 <= fr1 < fr2 /\ fphi2 < fphi1 <= 0.
Proof.
  assert (He : 0 <= 0.5 < 0.7) by lra.
  assert (He2 : 0.7 < 1) by lra.
  exact (rotation_monotone 0.5 0.7 0.5 He He2).
Defined.

(** *** The auxiliary angle *)

(** X5.  Whenever the auxiliary angle is returned, its cosine and sine lie
    on the unit circle and have the returned tangent as their quotient; the
    cosine is positive for [G > 1] and negative for [G <= 1], never zero. *)
Theorem kappa_1_unit_circle
  (eps E G t c s : R) (Hk : kappa_1 eps E G = Ok (t, c, s)) :
  c ^ 2 + s ^ 2 = 1 /\ s = t * c
  /\ (1 < G -> 0 < c) /\ (G <= 1 -> c < 0).
Proof.
  pose (p1 := fun o : outcome (R * R * R) =>
                match o with Ok (a, _, _) => a | Fault _ => 0 end).
  pose (p2 := fun o : outcome (R * R * R) =>
                match o with Ok (_, b, _) => b | Fault _ => 0 end).
  pose (p3 := fun o : outcome (R * R * R) =>
                match o with Ok (_, _, d) => d | Fault _ => 0 end).
  assert (Hneg : forall u, kappa_1 eps E G = Ok (u, cos_neg u, sin_neg u) ->
            c ^ 2 + s ^ 2 = 1 /\ s = t * c /\ c < 0).
  { intros u Hu. rewrite Hu in Hk.
    pose proof (f_equal p1 Hk) as H1. pose proof (f_equal p2 Hk) as H2.
    pose proof (f_equal p3 Hk) as H3. cbn in H1, H2, H3. subst t c s.
    destruct (right_triangle_pos u) as (Hcs & Hst & Hc0 & Hc1).
    destruct (right_triangle_neg u) as (-> & ->).
    rewrite Hst. repeat split; nra. }
  assert (Hpos : forall u, kappa_1 eps E G = Ok (u, cos_pos u, sin_pos u) ->
            c ^ 2 + s ^ 2 = 1 /\ s = t * c /\ 0 < c).
  { intros u Hu. rewrite Hu in Hk.
    pose proof (f_equal p1 Hk) as H1. pose proof (f_equal p2 Hk) as H2.
    pose proof (f_equal p3 Hk) as H3. cbn in H1, H2, H3. subst t c s.
    destruct (right_triangle_pos u) as (Hcs & Hst & Hc0 & Hc1).
    repeat split; assumption. }
  destruct (Req_dec_T G 1) as [-> | HG].
  - destruct (Hneg _ (kappa_1_singular eps E)) as (H1 & H2 & H3).
    repeat split; try assumption; intros; lra.
  - destruct (Req_dec_T eps 0) as [-> | Heps].
    + exfalso. unfold kappa_1 in Hk.
      replace (0 * (1 - G)) with 0 in Hk by lra.
      destruct (Rgt_dec G 1).
      * rewrite rdiv_zero in Hk. discriminate Hk.
      * destruct (Req_dec_T G 1); [contradiction | ].
        rewrite rdiv_zero in Hk. discriminate Hk.
    + destruct (Rtotal_order G 1) as [H | [H | H]]; [ | contradiction | ].
      * destruct (Hneg _ (kappa_1_below eps E G H Heps)) as (H1 & H2 & H3).
        repeat split; try assumption; intros; lra.
      * destruct (Hpos _ (kappa_1_above eps E G H Heps)) as (H1 & H2 & H3).
        repeat split; try assumption; intros; lra.
Qed.

Lemma kappa_1_unit_circle_witness :
  cos_pos (tan_val 0.7 2 2) ^ 2 + sin_pos (tan_val 0.7 2 2) ^ 2 = 1
  /\ sin_pos (tan_val 0.7 2 2) = tan_val 0.7 2 2 * cos_pos (tan_val 0.7 2 2).
Proof.
  assert (HG : 1 < 2) by lra. assert (He : 0.7 <> 0) by lra.
  pose proof (kappa_1_unit_circle 0.7 2 2 _ _ _ (kappa_1_above 0.7 2 2 HG He))
    as H.
  split; [exact (proj1 H) | exact (proj1 (proj2 H))].
Defined.

(** *** Homogeneity in the relative speeds *)

Lemma rdiv_scale (line : nat) (label : string) (k x y : R) :
  k <> 0 -> rdiv line label (k * x) (k * y) = rdiv line label x y.
Proof.
  intros Hk. unfold rdiv.
  destruct (Req_dec_T (k * y) 0) as [H | H];
    destruct (Req_dec_T y 0) as [H' | H']; try reflexivity.
  - exfalso. apply Rmult_integral in H. destruct H; contradiction.
  - exfalso. apply H. rewrite H'. ring.
  - f_equal. field. split; assumption.
Qed.

Lemma kappa_1_scale (eps E G k : R) :
  0 < k -> kappa_1 eps (k * E) (1 - k * (1 - G)) = kappa_1 eps E G.
Proof.
  intros Hk. unfold kappa_1.
  replace (eps * (1 - (1 - k * (1 - G)))) with (k * (eps * (1 - G))) by ring.
  rewrite !rdiv_scale by lra.
  destruct (Rgt_dec (1 - k * (1 - G)) 1) as [H | H];
    destruct (Rgt_dec G 1) as [H' | H']; try reflexivity;
    try (exfalso; nra).
  destruct (Req_dec_T (1 - k * (1 - G)) 1) as [H1 | H1];
    destruct (Req_dec_T G 1) as [H1' | H1']; try reflexivity;
    try (exfalso; nra).
  destruct (Rgt_dec (k * E) 0) as [H2 | H2];
    destruct (Rgt_dec E 0) as [H2' | H2']; try reflexivity; exfalso; nra.
Qed.

Lemma squeeze_homogeneous (eps E G B2D k : R) :
  0 < k ->
  squeeze eps (k * E) (1 - k * (1 - G)) B2D = scale k (squeeze eps E G B2D).
Proof.
  intros Hk. unfold squeeze. rewrite kappa_1_scale by exact Hk.
  destruct (kappa_1 eps E G) as [[[t c] s] | f]; [ | reflexivity].
  cbn [bind].
  destruct (phase c s) as [piS | f]; [ | reflexivity]. cbn [bind].
  destruct (I1 eps c) as [i1 | f]; [ | reflexivity]. cbn [bind].
  destruct (I2 eps c s piS) as [i2 | f]; [ | reflexivity]. cbn [bind].
  destruct (I3 eps c s piS) as [i3 | f]; [ | reflexivity]. cbn [bind scale].
  f_equal. f_equal; ring.
Qed.

(** X6.  With a radial speed other than zero the force is positively
    homogeneous of degree one in the pair [(E, 1 - G)]: multiplying [epsS]
    and [1 - 2 phiS] by [k > 0] multiplies both force components by [k] (and
    keeps a fault).  On the singular line [phiS = 1/2] this is
    proportionality to the radial speed. *)
Theorem force_homogeneous
  (eps epsS phiS B2D k : R) (Hk : 0 < k) (He : epsS <> 0) :
  fun_short_bearing eps (k * epsS) ((1 - k * (1 - 2 * phiS)) / 2) B2D
  = scale k (fun_short_bearing eps epsS phiS B2D)
  /\ fun_short_bearing eps (k * epsS) (1 / 2) B2D
     = scale k (fun_short_bearing eps epsS (1 / 2) B2D).
Proof.
  assert (Hke : k * epsS <> 0).
  { intros H. apply Rmult_integral in H. destruct H; [lra | contradiction]. }
  assert (Hgen : forall p : R,
    fun_short_bearing eps (k * epsS) ((1 - k * (1 - 2 * p)) / 2) B2D
    = scale k (fun_short_bearing eps epsS p B2D)).
  { intros p.
    rewrite !fun_short_bearing_squeeze by (left; assumption).
    replace (2 * (k * epsS)) with (k * (2 * epsS)) by ring.
    replace (2 * ((1 - k * (1 - 2 * p)) / 2)) with (1 - k * (1 - 2 * p))
      by lra.
    apply squeeze_homogeneous. exact Hk. }
  split; [apply Hgen | ].
  rewrite <- Hgen. f_equal. lra.
Qed.

Lemma force_homogeneous_witness :
  fun_short_bearing 0.7 (3 * 1) ((1 - 3 * (1 - 2 * 1)) / 2) 0.5
  = scale 3 (fun_short_bearing 0.7 1 1 0.5).
Proof.
  assert (Hk : 0 < 3) by lra. assert (He : 1 <> 0) by lra.
  exact (proj1 (force_homogeneous 0.7 1 1 0.5 3 Hk He)).
Defined.

(** *** The phase correction *)

(** X14.  For a cosine and sine on the unit circle the phase correction is
    [pi] exactly when the sine is negative and 0 otherwise, also at
    [cos_kappa_1 = -1], where the sine is 0 and the guard of line 32 is 0/0,
    which is not below zero. *)
Theorem phase_by_sine_sign (c s : R) (Hcs : c ^ 2 + s ^ 2 = 1) :
  phase c s = Ok (if Rlt_dec s 0 then PI else 0)
  /\ (c = - 1 -> s = 0 /\ phase c s = Ok 0).
Proof.
  assert (Hmain : phase c s = Ok (if Rlt_dec s 0 then PI else 0)).
  { unfold phase.
    destruct (Req_dec_T (1 + c) 0) as [H0 | H0].
    - destruct (Rlt_dec s 0); reflexivity.
    - assert (H1c : 0 < 1 + c) by nra.
      assert (Hi : 0 < / (1 + c)) by (apply Rinv_0_lt_compat; exact H1c).
      unfold Rdiv.
      destruct (Rlt_dec (s * / (1 + c)) 0) as [H | H];
        destruct (Rlt_dec s 0) as [H' | H']; try reflexivity; exfalso.
      + apply H'. nra.
      + apply H. nra. }
  split; [exact Hmain | ].
  intros ->. assert (Hs : s = 0) by nra. split; [exact Hs | ].
  rewrite Hmain, Hs.
  destruct (Rlt_dec 0 0) as [Hn | _]; [exfalso; lra | reflexivity].
Qed.

Lemma phase_by_sine_sign_witness :
  phase 0.6 (- 0.8) = Ok (if Rlt_dec (- 0.8) 0 then PI else 0).
Proof.
  assert (Hcs : 0.6 ^ 2 + (- 0.8) ^ 2 = 1) by lra.
  exact (proj1 (phase_by_sine_sign 0.6 (- 0.8) Hcs)).
Defined.

(** *** The tangential force on and off the singular line *)

Lemma fphi_val_above_negative (eps E B2D c s : R) :
  0 < eps < 1 -> B2D <> 0 -> c ^ 2 + s ^ 2 = 1 ->
  E < 0 -> s < 0 ->
  jump_level eps E B2D < fphi_val eps E 1 B2D c s.
Proof.
  intros Heps HB Hcs HE Hs.
  assert (Hc : c ^ 2 <= 1) by nra.
  unfold fphi_val, jump_level. cbv zeta.
  destruct (piS_val_sign c s Hcs) as [Hpn _].
  rewrite (Hpn Hs), I2_minus_I3 by assumption.
  set (K := atan_factor eps). set (T := odd_part eps c s).
  pose proof (atan_factor_pos eps) as HK. fold K in HK.
  pose proof (B2_pos B2D HB) as HB2.
  destruct (odd_part_sign eps c s Heps Hcs) as [HT _].
  specialize (HT Hs). fold T in HT.
  destruct (atan_bound (sqrt (1 - eps ^ 2) / eps / s)) as [Hlo _].
  fold (atan_val eps s) in Hlo.
  assert (HJ : PI / 2 * K < (PI + atan_val eps s) * K)
    by (apply Rmult_lt_compat_r; lra).
  assert (HET : 0 < E * T) by nra.
  assert (HEJ : (- E) * (PI / 2 * K) < (- E) * ((PI + atan_val eps s) * K))
    by (apply Rmult_lt_compat_l; [lra | assumption]).
  rewrite Ropp_mult_distr_r.
  apply Rmult_lt_compat_l; [exact HB2 | ]. lra.
Qed.

Lemma force_on_singular_line_negative (eps epsS B2D : R) :
  0 < eps < 1 -> epsS < 0 -> B2D <> 0 ->
  exists fr fphi : R,
    fun_short_bearing eps epsS (1 / 2) B2D = Ok (fr, fphi)
    /\ jump_level eps (2 * epsS) B2D < fphi.
Proof.
  intros Heps HepsS HB.
  rewrite fun_short_bearing_squeeze by (left; lra).
  replace (2 * (1 / 2)) with 1 by lra.
  set (E := 2 * epsS).
  assert (HE : E < 0) by (unfold E; lra).
  pose proof (kappa_1_singular eps E) as Hk. cbv zeta in Hk.
  destruct (Rgt_dec E 0) as [Hn | _]; [exfalso; lra | ].
  pose proof big_pos as Hbig.
  destruct (right_triangle_pos big) as (Hcs & Hst & Hc0 & Hc1).
  destruct (right_triangle_neg big) as (Hcn & Hsn).
  assert (Hs : sin_neg big < 0) by (rewrite Hsn, Hst; nra).
  assert (Hsq : cos_neg big ^ 2 + sin_neg big ^ 2 = 1)
    by (rewrite Hcn, Hsn; nra).
  exists (fr_val eps E 1 B2D (cos_neg big) (sin_neg big)),
         (fphi_val eps E 1 B2D (cos_neg big) (sin_neg big)).
  split.
  - apply squeeze_ok with big; try assumption. lra.
  - apply fphi_val_above_negative; assumption.
Qed.

Lemma force_on_singular_line_any (eps epsS B2D : R) :
  0 < eps < 1 -> epsS <> 0 -> B2D <> 0 ->
  exists fr fphi : R,
    fun_short_bearing eps epsS (1 / 2) B2D = Ok (fr, fphi)
    /\ jump_level eps (2 * epsS) B2D < fphi.
Proof.
  intros Heps He HB.
  destruct (Rtotal_order epsS 0) as [H | [H | H]]; [ | contradiction | ].
  - apply force_on_singular_line_negative; assumption.
  - apply force_on_singular_line; assumption.
Qed.

(** X7.  Off the singular line, for [eps] in (0,1) and a radial speed and a
    width ratio other than zero, the force has a value and its tangential
    component lies strictly below
    [- B2D^2 * 2 epsS * (pi/2) * (1 + 2 eps^2) / (1 - eps^2)^2.5]; for a
    positive radial speed it is therefore strictly negative. *)
Theorem tangential_force_bound
  (eps epsS phiS B2D : R)
  (Heps : 0 < eps < 1) (He : epsS <> 0) (Hp : phiS <> 1 / 2)
  (HB : B2D <> 0) :
  exists fr fphi : R,
    fun_short_bearing eps epsS phiS B2D = Ok (fr, fphi)
    /\ fphi < - (B2D ^ 2 * (2 * epsS
                 * (PI / 2 * ((1 + 2 * eps ^ 2) / Rpower (1 - eps ^ 2) 2.5))))
    /\ (0 < epsS -> fphi < 0).
Proof.
  destruct (force_off_singular_line eps epsS phiS B2D Heps He Hp HB)
    as (fr & fphi & Hf & Hlt).
  exists fr, fphi. split; [exact Hf | ].
  unfold jump_level, atan_factor in Hlt. split; [exact Hlt | ].
  intros Hpos.
  pose proof (atan_factor_pos eps) as HK. unfold atan_factor in HK.
  pose proof (B2_pos B2D HB) as HB2. pose proof PI_RGT_0 as Hpi.
  set (K := (1 + 2 * eps ^ 2) / Rpower (1 - eps ^ 2) 2.5) in *.
  assert (0 < PI / 2 * K) by (apply Rmult_lt_0_compat; lra).
  assert (0 < 2 * epsS * (PI / 2 * K)) by (apply Rmult_lt_0_compat; lra).
  assert (0 < B2D ^ 2 * (2 * epsS * (PI / 2 * K)))
    by (apply Rmult_lt_0_compat; assumption).
  lra.
Qed.

Lemma tangential_force_bound_witness :
  exists fr fphi : R,
    fun_short_bearing 0.7 1 1 0.5 = Ok (fr, fphi)
    /\ fphi < - (0.5 ^ 2 * (2 * 1
                 * (PI / 2 * ((1 + 2 * 0.7 ^ 2) / Rpower (1 - 0.7 ^ 2) 2.5))))
    /\ (0 < 1 -> fphi < 0).
Proof.
  assert (Heps : 0 < 0.7 < 1) by lra. assert (He : 1 <> 0) by lra.
  assert (Hp : 1 <> 1 / 2) by lra. assert (HB : 0.5 <> 0) by lra.
  exact (tangential_force_bound 0.7 1 1 0.5 Heps He Hp HB).
Defined.

(** X8.  For every [eps] in (0,1) and every radial speed and width ratio
    other than zero, the tangential force, as a function of [phiS], has a
    value everywhere, lies below [jump_level] at every [phiS <> 1/2] and
    above it at [phiS = 1/2]; it is not continuous at [phiS = 1/2]. *)
Theorem tangential_force_jump
  (eps epsS B2D : R) (Heps : 0 < eps < 1) (He : epsS <> 0) (HB : B2D <> 0) :
  (forall phiS : R, exists v : R * R,
      fun_short_bearing eps epsS phiS B2D = Ok v)
  /\ (forall phiS : R, phiS <> 1 / 2 ->
      tangential (fun_short_bearing eps epsS phiS B2D)
      < jump_level eps (2 * epsS) B2D)
  /\ jump_level eps (2 * epsS) B2D
     < tangential (fun_short_bearing eps epsS (1 / 2) B2D)
  /\ ~ continuity_pt
        (fun phiS => tangential (fun_short_bearing eps epsS phiS B2D))
        (1 / 2).
Proof.
  set (f := fun phiS => tangential (fun_short_bearing eps epsS phiS B2D)).
  set (L := jump_level eps (2 * epsS) B2D).
  assert (Hoff : forall phiS : R, phiS <> 1 / 2 -> f phiS < L).
  { intros phiS Hp. unfold f.
    destruct (force_off_singular_line eps epsS phiS B2D Heps He Hp HB)
      as (fr & fphi & Hf & Hlt).
    rewrite Hf. exact Hlt. }
  assert (Hon : L < f (1 / 2)).
  { unfold f.
    destruct (force_on_singular_line_any eps epsS B2D Heps He HB)
      as (fr & fphi & Hf & Hlt).
    rewrite Hf. exact Hlt. }
  split.
  { intros phiS. rewrite fun_short_bearing_squeeze by (left; exact He).
    destruct (squeeze_defined eps (2 * epsS) (2 * phiS) B2D)
      as (t & c & s & _ & _ & _ & Hs); [exact Heps | lra | ].
    rewrite Hs. eauto. }
  split; [exact Hoff | ]. split; [exact Hon | ].
  intros Hcont.
  assert (Hgap : f (1 / 2) - L > 0) by lra.
  destruct (Hcont _ Hgap) as (alp & Halp & Hd).
  specialize (Hd (1 / 2 + alp / 2)).
  assert (Hne : 1 / 2 + alp / 2 <> 1 / 2) by lra.
  pose proof (Hoff _ Hne) as Hoff'.
  cbn in Hd. unfold Rdist, D_x, no_cond in Hd.
  assert (Hpre : (True /\ 1 / 2 <> 1 / 2 + alp / 2)
                 /\ Rabs (1 / 2 + alp / 2 - 1 / 2) < alp).
  { split; [split; [exact I | lra] | ]. apply Rabs_def1; lra. }
  specialize (Hd Hpre). apply Rabs_def2 in Hd. lra.
Qed.

Lemma tangential_force_jump_witness :
  (forall phiS : R, exists v : R * R,
      fun_short_bearing 0.7 (- (1)) phiS 0.5 = Ok v)
  /\ (forall phiS : R, phiS <> 1 / 2 ->
      tangential (fun_short_bearing 0.7 (- (1)) phiS 0.5)
      < jump_level 0.7 (2 * - (1)) 0.5)
  /\ jump_level 0.7 (2 * - (1)) 0.5
     < tangential (fun_short_bearing 0.7 (- (1)) (1 / 2) 0.5)
  /\ ~ continuity_pt
        (fun phiS => tangential (fun_short_bearing 0.7 (- (1)) phiS 0.5))
        (1 / 2).
Proof.
  assert (Heps : 0 < 0.7 < 1) by lra. assert (He : - (1) <> 0) by lra.
  assert (HB : 0.5 <> 0) by lra.
  exact (tangential_force_jump 0.7 (- (1)) 0.5 Heps He HB).
Defined.

(** ** Further properties of the rotor set-up *)

Module JeffcottMore.

Import Jeffcott JeffcottFacts.

Lemma rows_8 (X : mat) :
  length X = 8%nat ->
  exists r0 r1 r2 r3 r4 r5 r6 r7 : vec, X = [r0; r1; r2; r3; r4; r5; r6; r7].
Proof.
  intros H.
  do 8 (destruct X as [ | ? X]; [discriminate H | ]).
  destruct X; [ | discriminate H]. repeat eexists.
Qed.

Lemma rows_4 (X : mat) :
  length X = 4%nat -> exists r0 r1 r2 r3 : vec, X = [r0; r1; r2; r3].
Proof.
  intros H.
  do 4 (destruct X as [ | ? X]; [discriminate H | ]).
  destruct X; [ | discriminate H]. repeat eexists.
Qed.

Section RightHandSideRows.

Variable bearing_journal_short : vec -> R -> R -> R -> R -> R -> vec.
Variable unbalance_const_acc : R -> R -> R -> vec.
Variable state_space : mat -> mat -> mat -> mat * mat.
Variables (t : R) (q : vec) (fb0 fb1 fu0 fu1 : R).

Hypothesis A_shape : shape 8 8 (A state_space).
Hypothesis Minv_shape : shape 4 4 (Minv state_space).
Hypothesis bearing_force :
  bearing_journal_short (take_indices q [0; 2; 4; 6]%nat) BB DB CB eta
                        (arot * t) = [fb0; fb1].
Hypothesis unbalance_force : unbalance_const_acc t eps arot = [fu0; fu1].

Lemma rotor_Jeffcott_rows :
  rotor_Jeffcott bearing_journal_short unbalance_const_acc state_space t q
  = firstn 4 (matvec (A state_space) q)
    ++ vsub (vadd (skipn 4 (matvec (A state_space) q))
                  (matvec (Minv state_space) [2 * fb0; fu0; 2 * fb1; fu1]))
            [0; 0; g; g].
Proof.
  unfold rotor_Jeffcott. rewrite bearing_force, unbalance_force.
  cbn [smul map nth].
  destruct A_shape as [HA _]. destruct Minv_shape as [HM _].
  destruct (rows_8 _ HA) as (r0 & r1 & r2 & r3 & r4 & r5 & r6 & r7 & ->).
  destruct (rows_4 _ HM) as (m0 & m1 & m2 & m3 & ->).
  unfold gvec.
  cbn [matvec map firstn skipn vadd vsub zip_with app zeros repeat smul].
  repeat (f_equal; try lra).
Qed.

End RightHandSideRows.

(** X9.  In the right-hand side neither the bearing force, the unbalance
    force nor gravity enters the four position rows, which are those of
    [A q]; the four velocity rows are those of [A q] plus
    [Minv [FBx, FUx, FBy, FUy]], with [g] taken from the two y rows only.
    The result has eight components. *)
Theorem rotor_Jeffcott_structure
  (bearing_journal_short : vec -> R -> R -> R -> R -> R -> vec)
  (unbalance_const_acc : R -> R -> R -> vec)
  (state_space : mat -> mat -> mat -> mat * mat)
  (t : R) (q : vec) (fb0 fb1 fu0 fu1 : R)
  (A_shape : shape 8 8 (A state_space))
  (Minv_shape : shape 4 4 (Minv state_space))
  (q_length : length q = 8%nat)
  (bearing_force :
     bearing_journal_short (take_indices q [0; 2; 4; 6]%nat) BB DB CB eta
                           (arot * t) = [fb0; fb1])
  (unbalance_force : unbalance_const_acc t eps arot = [fu0; fu1]) :
  length (rotor_Jeffcott bearing_journal_short unbalance_const_acc
                         state_space t q) = 8%nat
  /\ firstn 4 (rotor_Jeffcott bearing_journal_short unbalance_const_acc
                              state_space t q)
     = firstn 4 (matvec (A state_space) q)
  /\ skipn 4 (rotor_Jeffcott bearing_journal_short unbalance_const_acc
                             state_space t q)
     = vsub (vadd (skipn 4 (matvec (A state_space) q))
                  (matvec (Minv state_space) [2 * fb0; fu0; 2 * fb1; fu1]))
            [0; 0; g; g].
Proof.
  rewrite (rotor_Jeffcott_rows _ _ _ t q fb0 fb1 fu0 fu1
             A_shape Minv_shape bearing_force unbalance_force).
  destruct A_shape as [HA _]. destruct Minv_shape as [HM _].
  destruct (rows_8 _ HA) as (r0 & r1 & r2 & r3 & r4 & r5 & r6 & r7 & ->).
  destruct (rows_4 _ HM) as (m0 & m1 & m2 & m3 & ->).
  cbn [matvec map firstn skipn vadd vsub zip_with app length].
  repeat split.
Qed.

Lemma rotor_Jeffcott_structure_witness :
  length (rotor_Jeffcott no_force_bearing no_force_unbalance
                         state_space_diagonal 0 q0) = 8%nat
  /\ firstn 4 (rotor_Jeffcott no_force_bearing no_force_unbalance
                              state_space_diagonal 0 q0)
     = firstn 4 (matvec (A state_space_diagonal) q0)
  /\ skipn 4 (rotor_Jeffcott no_force_bearing no_force_unbalance
                             state_space_diagonal 0 q0)
     = vsub (vadd (skipn 4 (matvec (A state_space_diagonal) q0))
                  (matvec (Minv state_space_diagonal) [2 * 0; 0; 2 * 0; 0]))
            [0; 0; g; g].
Proof.
  apply (rotor_Jeffcott_structure no_force_bearing no_force_unbalance
           state_space_diagonal 0 q0 0 0 0 0).
  - exact A_diagonal_shape.
  - exact Minv_diagonal_shape.
  - reflexivity.
  - reflexivity.
  - reflexivity.
Defined.

(** X10.  The part of the right-hand side that is not [A q] depends on the
    state only through the journal coordinates [q[0], q[2], q[4], q[6]]:
    two states that agree there give the same difference between the
    right-hand side and [A q]. *)
Theorem rotor_Jeffcott_journal_only
  (bearing_journal_short : vec -> R -> R -> R -> R -> R -> vec)
  (unbalance_const_acc : R -> R -> R -> vec)
  (state_space : mat -> mat -> mat -> mat * mat)
  (t : R) (q q' : vec) (fb0 fb1 fu0 fu1 : R)
  (A_shape : shape 8 8 (A state_space))
  (Minv_shape : shape 4 4 (Minv state_space))
  (q_length : length q = 8%nat) (q'_length : length q' = 8%nat)
  (journal : take_indices q [0; 2; 4; 6]%nat
             = take_indices q' [0; 2; 4; 6]%nat)
  (bearing_force :
     bearing_journal_short (take_indices q [0; 2; 4; 6]%nat) BB DB CB eta
                           (arot * t) = [fb0; fb1])
  (unbalance_force : unbalance_const_acc t eps arot = [fu0; fu1]) :
  vsub (rotor_Jeffcott bearing_journal_short unbalance_const_acc
                       state_space t q)
       (matvec (A state_space) q)
  = vsub (rotor_Jeffcott bearing_journal_short unbalance_const_acc
                         state_space t q')
         (matvec (A state_space) q').
Proof.
  assert (bearing_force' :
     bearing_journal_short (take_indices q' [0; 2; 4; 6]%nat) BB DB CB eta
                           (arot * t) = [fb0; fb1])
    by (rewrite <- journal; exact bearing_force).
  rewrite (rotor_Jeffcott_rows _ _ _ t q fb0 fb1 fu0 fu1
             A_shape Minv_shape bearing_force unbalance_force).
  rewrite (rotor_Jeffcott_rows _ _ _ t q' fb0 fb1 fu0 fu1
             A_shape Minv_shape bearing_force' unbalance_force).
  destruct A_shape as [HA _]. destruct Minv_shape as [HM _].
  destruct (rows_8 _ HA) as (r0 & r1 & r2 & r3 & r4 & r5 & r6 & r7 & ->).
  destruct (rows_4 _ HM) as (m0 & m1 & m2 & m3 & ->).
  cbn [matvec map firstn skipn vadd vsub zip_with app].
  repeat (f_equal; try lra).
Qed.

Lemma rotor_Jeffcott_journal_only_witness :
  vsub (rotor_Jeffcott no_force_bearing no_force_unbalance
                       state_space_diagonal 0 q0)
       (matvec (A state_space_diagonal) q0)
  = vsub (rotor_Jeffcott no_force_bearing no_force_unbalance
                         state_space_diagonal 0
                         [1e-10; 1; 1e-10; 2; 1e-10; 3; 1e-10; 4])
         (matvec (A state_space_diagonal)
                 [1e-10; 1; 1e-10; 2; 1e-10; 3; 1e-10; 4]).
Proof.
  apply (rotor_Jeffcott_journal_only no_force_bearing no_force_unbalance
           state_space_diagonal 0 q0
           [1e-10; 1; 1e-10; 2; 1e-10; 3; 1e-10; 4] 0 0 0 0).
  - exact A_diagonal_shape.
  - exact Minv_diagonal_shape.
  - reflexivity.
  - reflexivity.
  - cbn. repeat (f_equal; try lra).
  - reflexivity.
  - reflexivity.
Defined.

(** *** The system matrices *)

Lemma sum_sq_zero (a b x y : R) :
  0 < a -> 0 < b -> a * x ^ 2 + b * y ^ 2 = 0 -> x = 0 /\ y = 0.
Proof.
  intros Ha Hb H.
  assert (Hx : 0 <= a * x ^ 2) by (apply Rmult_le_pos; [lra | apply pow2_ge_0]).
  assert (Hy : 0 <= b * y ^ 2) by (apply Rmult_le_pos; [lra | apply pow2_ge_0]).
  assert (Hx0 : a * x ^ 2 = 0) by lra. assert (Hy0 : b * y ^ 2 = 0) by lra.
  apply Rmult_integral in Hx0. apply Rmult_integral in Hy0.
  destruct Hx0 as [Hx0 | Hx0]; [lra | ]. destruct Hy0 as [Hy0 | Hy0]; [lra | ].
  assert (Hsq : forall z : R, z ^ 2 = 0 -> z = 0).
  { intros z Hz. destruct (Rtotal_order z 0) as [Hn | [Hn | Hn]];
      [exfalso; nra | exact Hn | exfalso; nra]. }
  split; apply Hsq; assumption.
Qed.

(** X11.  The mass matrix is positive definite: its quadratic form vanishes
    only at the zero vector and lies between [mj] and [m] times the squared
    length of the vector. *)
Theorem M_positive_definite (x0 x1 x2 x3 : R) :
  (quad4 M x0 x1 x2 x3 = 0 <-> x0 = 0 /\ x1 = 0 /\ x2 = 0 /\ x3 = 0)
  /\ mj * (x0 ^ 2 + x1 ^ 2 + x2 ^ 2 + x3 ^ 2) <= quad4 M x0 x1 x2 x3
  /\ quad4 M x0 x1 x2 x3 <= m * (x0 ^ 2 + x1 ^ 2 + x2 ^ 2 + x3 ^ 2).
Proof.
  rewrite quad4_M. unfold mj, m.
  assert (H0 : 0 <= x0 ^ 2) by apply pow2_ge_0.
  assert (H1 : 0 <= x1 ^ 2) by apply pow2_ge_0.
  assert (H2 : 0 <= x2 ^ 2) by apply pow2_ge_0.
  assert (H3 : 0 <= x3 ^ 2) by apply pow2_ge_0.
  split; [split | split; lra].
  - intros H.
    assert (Ha : 1e-5 * x0 ^ 2 + 0.1 * x1 ^ 2 = 0) by lra.
    assert (Hb : 1e-5 * x2 ^ 2 + 0.1 * x3 ^ 2 = 0) by lra.
    apply sum_sq_zero in Ha; [ | lra | lra].
    apply sum_sq_zero in Hb; [ | lra | lra]. tauto.
  - intros (-> & -> & -> & ->). lra.
Qed.

(** X12.  Stiffness and damping are positive semi-definite but not
    definite: their quadratic forms vanish exactly on the vectors with
    [xj = xm] and [yj = ym], and both matrices send such a vector to zero
    (journal and mass moving together load neither the shaft nor the
    damper). *)
Theorem coupling_kernel (x0 x1 x2 x3 a b : R) :
  (quad4 C x0 x1 x2 x3 = 0 <-> x0 = x1 /\ x2 = x3)
  /\ (quad4 D x0 x1 x2 x3 = 0 <-> x0 = x1 /\ x2 = x3)
  /\ matvec C [a; a; b; b] = [0; 0; 0; 0]
  /\ matvec D [a; a; b; b] = [0; 0; 0; 0].
Proof.
  assert (Hker : forall k : R, 0 < k ->
            (k * ((x0 - x1) ^ 2 + (x2 - x3) ^ 2) = 0 <-> x0 = x1 /\ x2 = x3)).
  { intros k Hk. split.
    - intros H.
      replace (k * ((x0 - x1) ^ 2 + (x2 - x3) ^ 2))
        with (k * (x0 - x1) ^ 2 + k * (x2 - x3) ^ 2) in H by ring.
      apply sum_sq_zero in H; [ | assumption | assumption]. lra.
    - intros [-> ->]. ring. }
  split; [unfold C; rewrite quad4_coupling; apply Hker; unfold cs; lra | ].
  split; [unfold D; rewrite quad4_coupling; apply Hker; rewrite d_exact; lra | ].
  split; cbn; repeat (f_equal; try lra).
Qed.

(** *** The plotted eccentricity *)

(** X13.  The plotted eccentricity of a sample is nonnegative, is the
    radius of the plotted orbit point [(x/CB, y/CB)], vanishes only at the
    bearing centre, and is below 1 exactly when the journal centre lies
    inside the circle of radius [CB]; for the initial state [q0] it lies
    strictly between 0 and 1. *)
Theorem journal_eccentricity_properties (x y : R) :
  0 <= journal_eccentricity x y
  /\ journal_eccentricity x y
     = sqrt (fst (journal_orbit x y) ^ 2 + snd (journal_orbit x y) ^ 2)
  /\ (journal_eccentricity x y = 0 <-> x = 0 /\ y = 0)
  /\ (journal_eccentricity x y < 1 <-> x ^ 2 + y ^ 2 < CB ^ 2)
  /\ 0 < journal_eccentricity (nth 0 q0 0) (nth 2 q0 0) < 1.
Proof.
  assert (HCB : 0 < CB) by (unfold CB; lra).
  assert (Hxy : 0 <= x ^ 2 + y ^ 2)
    by (apply Rplus_le_le_0_compat; apply pow2_ge_0).
  assert (Hlt : forall u v : R, 0 <= u ^ 2 + v ^ 2 ->
            (sqrt (u ^ 2 + v ^ 2) / CB < 1 <-> u ^ 2 + v ^ 2 < CB ^ 2)).
  { intros u v Huv.
    assert (Hs : 0 <= sqrt (u ^ 2 + v ^ 2)) by apply sqrt_pos.
    assert (Hss : sqrt (u ^ 2 + v ^ 2) * sqrt (u ^ 2 + v ^ 2) = u ^ 2 + v ^ 2)
      by (apply sqrt_sqrt; exact Huv).
    split; intros H.
    - assert (H' : sqrt (u ^ 2 + v ^ 2) < CB).
      { apply Rmult_lt_reg_r with (/ CB); [apply Rinv_0_lt_compat; exact HCB | ].
        rewrite Rinv_r by lra. exact H. }
      nra.
    - apply Rmult_lt_reg_r with CB; [exact HCB | ].
      unfold Rdiv. rewrite Rmult_assoc, Rinv_l by lra.
      destruct (Rlt_le_dec (sqrt (u ^ 2 + v ^ 2)) CB) as [Hc | Hc]; [lra | nra]. }
  unfold journal_eccentricity, journal_orbit. cbn [fst snd].
  split; [apply Rmult_le_pos; [apply sqrt_pos | left; apply Rinv_0_lt_compat; exact HCB] | ].
  split.
  { replace ((x / CB) ^ 2 + (y / CB) ^ 2) with ((x ^ 2 + y ^ 2) / CB ^ 2)
      by (field; lra).
    rewrite sqrt_div_alt by (apply pow_lt; exact HCB).
    replace (CB ^ 2) with (CB * CB) by ring.
    rewrite sqrt_square by lra. reflexivity. }
  split.
  { split.
    - intros H.
      assert (Hs : sqrt (x ^ 2 + y ^ 2) = 0).
      { apply Rmult_eq_reg_r with (/ CB);
          [ | apply Rgt_not_eq, Rinv_0_lt_compat; exact HCB].
        rewrite Rmult_0_l. exact H. }
      apply sqrt_eq_0 in Hs; [ | exact Hxy].
      replace (x ^ 2 + y ^ 2) with (1 * x ^ 2 + 1 * y ^ 2) in Hs by ring.
      apply sum_sq_zero in Hs; [exact Hs | lra | lra].
    - intros [-> ->]. replace (0 ^ 2 + 0 ^ 2) with 0 by ring.
      rewrite sqrt_0. unfold Rdiv. ring. }
  split; [apply Hlt; exact Hxy | ].
  cbn [q0 zeros repeat map nth].
  assert (Hq : 0 < (0 + 1e-10) ^ 2 + (0 + 1e-10) ^ 2) by nra.
  split.
  - apply Rdiv_lt_0_compat; [apply sqrt_lt_R0; exact Hq | exact HCB].
  - apply Hlt; [lra | ]. unfold CB. nra.
Qed.

End JeffcottMore.
